(** * BTPS SDK: identity resolution, response schema, trust store, client retry

    A shallow embedding of the parts of the BTPS SDK that its specification
    makes promises about, and the proofs (or refutations) of those promises.

    - [JS]         the JavaScript string primitives the sources rely on
                   ([split], [trim], [join], the [/.{1,64}/g] matcher);
    - [Identity]   [parseIdentity], [base64ToPem], [getHostAndSelector] and
                   [getDnsIdentityParts] (core/utils/index.ts);
    - [Schema]     [BtpServerResponseSchema] (zod 3 object + superRefine);
    - [TrustStore] [JsonTrustStore] over an explicit file-system world;
    - [Client]     the retry policy and the destroy life-cycle of the client
                   connector. *)

From Stdlib Require Import ZArith Lia Bool Ascii.
From stdpp Require Import base option list strings gmap.

(* ===================================================================== *)
(** ** JavaScript string primitives *)
(* ===================================================================== *)

Module JS.

(** JavaScript strings are modelled by [string] (sequences of 8-bit
    characters): DNS TXT data, identities and base64 text are ASCII. *)

Definition is_empty (s : string) : bool :=
  match s with EmptyString => true | String _ _ => false end.

(** [!x] for a string or [undefined]: only [undefined] and the empty
    string are falsy. *)
Definition falsy (o : option string) : bool :=
  match o with None => true | Some s => is_empty s end.

(** [s.split(sep)] for a one-character separator. *)
Fixpoint split (sep : ascii) (s : string) : list string :=
  match s with
  | EmptyString => [EmptyString]
  | String c rest =>
      if Ascii.eqb c sep then EmptyString :: split sep rest
      else match split sep rest with
           | [] => [String c EmptyString]
           | seg :: segs => String c seg :: segs
           end
  end.

(** [parts.join(sep)]. *)
Fixpoint join (sep : string) (parts : list string) : string :=
  match parts with
  | [] => EmptyString
  | [p] => p
  | p :: ps => p +:+ sep +:+ join sep ps
  end.

(** White space removed by [String.prototype.trim], restricted to the
    8-bit range: TAB, LF, VT, FF, CR and SPACE. *)
Definition is_space (c : ascii) : bool :=
  let n := nat_of_ascii c in
  ((9 <=? n) && (n <=? 13)) || (n =? 32).

Fixpoint trimStart (s : string) : string :=
  match s with
  | EmptyString => EmptyString
  | String c rest => if is_space c then trimStart rest else s
  end.

Fixpoint trimEnd (s : string) : string :=
  match s with
  | EmptyString => EmptyString
  | String c rest =>
      let rest' := trimEnd rest in
      if is_space c && is_empty rest' then EmptyString else String c rest'
  end.

Definition trim (s : string) : string := trimEnd (trimStart s).

(** Does the character occur in the string, and how often. *)
Fixpoint has_char (c : ascii) (s : string) : bool :=
  match s with
  | EmptyString => false
  | String x rest => Ascii.eqb x c || has_char c rest
  end.

Fixpoint count_char (c : ascii) (s : string) : nat :=
  match s with
  | EmptyString => 0
  | String x rest => (if Ascii.eqb x c then 1 else 0) + count_char c rest
  end.

(** Line terminators, which [.] in a regular expression does not match
    (8-bit range: LF and CR). *)
Definition is_line_terminator (c : ascii) : bool :=
  let n := nat_of_ascii c in (n =? 10) || (n =? 13).

Definition flush (cur : string) : list string :=
  if is_empty cur then [] else [cur].

(** [s.match(/.{1,width}/g) || []]: the successive greedy runs of at most
    [width] characters none of which is a line terminator.  [room] is what
    is left of the current run, [cur] the run read so far. *)
Fixpoint match_runs (width room : nat) (cur : string) (s : string) : list string :=
  match s with
  | EmptyString => flush cur
  | String c rest =>
      if is_line_terminator c then flush cur ++ match_runs width width EmptyString rest
      else match room with
           | O => flush cur ++ match_runs width (pred width) (String c EmptyString) rest
           | S room' => match_runs width room' (cur +:+ String c EmptyString) rest
           end
  end.

(** JavaScript values as [JSON.parse] and object literals build them.
    Numbers are kept as integers: the sources only test their type. *)
#[local] Set Warnings "-register-all".
Inductive jsval : Type :=
| JUndefined
| JNull
| JBool (b : bool)
| JNum (n : Z)
| JStr (s : string)
| JArr (items : list jsval)
| JObj (props : list (string * jsval)).

(** [obj[k]]: the value of the property, [undefined] when there is none. *)
Fixpoint prop (props : list (string * jsval)) (k : string) : jsval :=
  match props with
  | [] => JUndefined
  | (k', v) :: rest => if String.eqb k' k then v else prop rest k
  end.

(** The truthiness [if (v)] and [!v] test. *)
Definition truthy (v : jsval) : bool :=
  match v with
  | JUndefined | JNull => false
  | JBool b => b
  | JNum n => negb (n =? 0)%Z
  | JStr s => negb (is_empty s)
  | JArr _ | JObj _ => true
  end.

(** [typeof v === 'string']. *)
Definition is_string (v : jsval) : bool :=
  match v with JStr _ => true | _ => false end.

Definition is_digit (c : ascii) : bool :=
  let n := nat_of_ascii c in (48 <=? n) && (n <=? 57).

Fixpoint skip_digits (s : string) : string :=
  match s with
  | EmptyString => EmptyString
  | String c rest => if is_digit c then skip_digits rest else s
  end.

(** [\d+] at the head of [s]: what follows the digits, if there is one. *)
Definition digits1 (s : string) : option string :=
  match s with
  | EmptyString => None
  | String c rest => if is_digit c then Some (skip_digits rest) else None
  end.

(** A literal dot at the head of [s]. *)
Definition dot (s : string) : option string :=
  match s with
  | EmptyString => None
  | String c rest => if Ascii.eqb c "." then Some rest else None
  end.

(** [/^\d+\.\d+\.\d+$/.test(s)]. *)
Definition semver (s : string) : bool :=
  match ((((digits1 s ≫= dot) ≫= digits1) ≫= dot) ≫= digits1) with
  | Some EmptyString => true
  | _ => false
  end.

(** *** Further string primitives *)

Fixpoint take_chars (n : nat) (s : string) : string :=
  match n, s with
  | S n', String c rest => String c (take_chars n' rest)
  | _, _ => EmptyString
  end.

Fixpoint drop_chars (n : nat) (s : string) : string :=
  match n, s with
  | S n', String _ rest => drop_chars n' rest
  | _, _ => s
  end.

(** [s.replace(/needle/, '')] for a pattern without metacharacters: the
    leftmost occurrence of the needle is removed. *)
Fixpoint remove_first (needle s : string) : string :=
  if String.prefix needle s then drop_chars (String.length needle) s
  else match s with
       | EmptyString => EmptyString
       | String c rest => String c (remove_first needle rest)
       end.

(** [s.replace(/\r?\n/g, '')]: every line feed is removed, together with a
    carriage return that stands just before it; any other carriage return
    stays. *)
Fixpoint remove_newlines (s : string) : string :=
  match s with
  | EmptyString => EmptyString
  | String c rest =>
      if (nat_of_ascii c =? 10) then remove_newlines rest
      else if (nat_of_ascii c =? 13) then
        match rest with
        | String c' rest' =>
            if (nat_of_ascii c' =? 10) then remove_newlines rest'
            else String c (remove_newlines rest)
        | EmptyString => String c EmptyString
        end
      else String c (remove_newlines rest)
  end.

(** The characters of base64 text: letters, digits, [+], [/] and the
    padding [=]. *)
Definition is_base64_char (c : ascii) : bool :=
  let n := nat_of_ascii c in
  ((65 <=? n) && (n <=? 90)) || ((97 <=? n) && (n <=? 122)) ||
  ((48 <=? n) && (n <=? 57)) || (n =? 43) || (n =? 47) || (n =? 61).

Fixpoint base64Text (s : string) : bool :=
  match s with
  | EmptyString => true
  | String c rest => is_base64_char c && base64Text rest
  end.

(** A string without line terminators. *)
Fixpoint one_line (s : string) : bool :=
  match s with
  | EmptyString => true
  | String c rest => negb (is_line_terminator c) && one_line rest
  end.

(** The strings of a list, one after the other. *)
Definition concat_strings (l : list string) : string :=
  foldr String.append EmptyString l.

End JS.

(* ===================================================================== *)
(** ** Identities and DNS records (core/utils/index.ts) *)
(* ===================================================================== *)

Module Identity.
Import JS.

Record ParsedIdentity := mkParsedIdentity {
  accountName : string;
  domainName : string
}.

(** [const [accountName, domainName] = identity.split('$')]: the first two
    segments; a missing segment is [undefined]. *)
Definition parseIdentity (identity : string) : option ParsedIdentity :=
  let segs := split "$" identity in
  let accountName := segs !! 0 in
  let domainName := segs !! 1 in
  if falsy accountName || falsy domainName then None
  else match accountName, domainName with
       | Some a, Some d => Some (mkParsedIdentity a d)
       | _, _ => None
       end.

Definition isValidIdentity (identity : string) : bool :=
  match parseIdentity identity with Some _ => true | None => false end.

(** The string form [account$domain] of a parsed identity. *)
Definition identityString (p : ParsedIdentity) : string :=
  accountName p +:+ "$" +:+ domainName p.

(** The strings whose first two [$]-separated segments are the non-empty
    [a] and [d]: [a$d] itself, or [a$d$] followed by anything. *)
Definition firstTwoSegments (a d s : string) : Prop :=
  a <> EmptyString /\ d <> EmptyString /\
  has_char "$" a = false /\ has_char "$" d = false /\
  (s = a +:+ "$" +:+ d \/ exists tl, s = a +:+ "$" +:+ d +:+ "$" +:+ tl).

Definition LF : string := String (ascii_of_nat 10) EmptyString.

(** [base64.match(/.{1,64}/g) || []], wrapped in the PEM header and footer
    and joined by line feeds. *)
Definition base64ToPem (base64 : string) : string :=
  let lines := match_runs 64 64 EmptyString base64 in
  join LF (["-----BEGIN PUBLIC KEY-----"] ++ lines ++ ["-----END PUBLIC KEY-----"]).

(** Modelled from the spec: [BTP_PROTOCOL_VERSION] of server/index.js, which
    is not among the sources; the spec gives the protocol version literal
    [1.0.0] (the unit tests of the client expect the same). *)
Definition BTP_PROTOCOL_VERSION : string := "1.0.0".

(** Modelled from the spec: [BTPS_NAME_SPACE] of server/index.js, which is
    not among the sources; the spec gives the reserved DNS label [_btps]. *)
Definition BTPS_NAME_SPACE : string := "_btps".

(** An async function either resolves with a value or rejects with an
    [Error] carrying a message. *)
Inductive Outcome (A : Type) : Type :=
| Return (value : A)
| Throw (message : string).
Arguments Return {A} value.
Arguments Throw {A} message.

(** [dns.resolveTxt(name)]: the TXT sets of the name, or a rejection, kept as
    the text [JSON.stringify] gives for it. *)
Inductive TxtAnswer : Type :=
| TxtRecords (txtRecords : list (list string))
| TxtFailure (errorJson : string).

Definition Resolver : Type := string -> TxtAnswer.

(** [txtRecords.map((r) => r.join('')).join('')]. *)
Definition flatten (txtRecords : list (list string)) : string :=
  join EmptyString (map (join EmptyString) txtRecords).

(** [flat.split(';').map((s) => s.trim().split('=').map((p) => p.trim()))
        .filter((pair) => pair.length === 2)]. *)
Definition txtPairs (flat : string) : list (list string) :=
  filter (fun pair => length pair = 2)
         (map (fun s => map trim (split "=" (trim s))) (split ";" flat)).

(** [Object.fromEntries]: a later entry replaces an earlier one of the
    same key. *)
Definition fromEntries (entries : list (list string)) : gmap string string :=
  foldl (fun parts entry =>
           match entry with
           | [k; v] => <[k := v]> parts
           | _ => parts
           end) ∅ entries.

Definition txtParts (txtRecords : list (list string)) : gmap string string :=
  fromEntries (txtPairs (flatten txtRecords)).

Record HostAndSelector := mkHostAndSelector {
  host : string;
  selector : string
}.

Definition getHostAndSelector (resolveTxt : Resolver) (identity : string)
  : Outcome (option HostAndSelector) :=
  match parseIdentity identity with
  | None => Return None
  | Some parsedIdentity =>
      let dnsName := BTPS_NAME_SPACE +:+ "." +:+ domainName parsedIdentity in
      match resolveTxt dnsName with
      | TxtFailure error =>
          Throw ("DNS resolution failed for " +:+ dnsName +:+ ": " +:+ error)
      | TxtRecords txtRecords =>
          if bool_decide (length txtRecords = 0) then Return None
          else
            let parts := txtParts txtRecords in
            if negb (bool_decide (parts !! "v" = Some BTP_PROTOCOL_VERSION)) then Return None
            else if falsy (parts !! "u") || falsy (parts !! "s") then Return None
            else match parts !! "u", parts !! "s" with
                 | Some u, Some s => Return (Some (mkHostAndSelector u s))
                 | _, _ => Return None
                 end
      end
  end.

(** The optional [type] argument: ['key' | 'pem' | 'version']. *)
Inductive PartType : Type := key | pem | version.

Definition typeMap (type : PartType) : string :=
  match type with
  | key => "k"
  | version => "v"
  | pem => "p"
  end.

(** What [getDnsIdentityParts] resolves with: the three parts when no
    [type] is asked for, one string (or [undefined]) otherwise. *)
Inductive IdentityParts : Type :=
| AllParts (k v : option string) (p : string)
| OnePart (value : option string).

(** [base64ToPem(parts['p'])] inside the [try] block: when the record has no
    [p] pair the argument is [undefined], [undefined.match] raises a
    [TypeError], and the [catch] turns it into the DNS error;
    [JSON.stringify] of a [TypeError] is the text of an empty object. *)
Definition pemOfParts (domainName : string) (parts : gmap string string)
  : Outcome string :=
  match parts !! "p" with
  | Some base64 => Return (base64ToPem base64)
  | None => Throw ("DNS resolution failed for " +:+ domainName +:+ ": {}")
  end.

Definition getDnsIdentityParts (resolveTxt : Resolver)
    (identity selector : string) (type : option PartType)
  : Outcome (option IdentityParts) :=
  match parseIdentity identity with
  | None => Return None
  | Some (mkParsedIdentity accountName domainName) =>
      let dnsName :=
        selector +:+ "." +:+ BTPS_NAME_SPACE +:+ "." +:+ accountName +:+ "." +:+ domainName in
      match resolveTxt dnsName with
      | TxtFailure error =>
          Throw ("DNS resolution failed for " +:+ domainName +:+ ": " +:+ error)
      | TxtRecords txtRecords =>
          if bool_decide (length txtRecords = 0) then Return None
          else
            let parts := txtParts txtRecords in
            match type with
            | None =>
                match pemOfParts domainName parts with
                | Return p => Return (Some (AllParts (parts !! "k") (parts !! "v") p))
                | Throw e => Throw e
                end
            | Some pem =>
                match pemOfParts domainName parts with
                | Return p => Return (Some (OnePart (Some p)))
                | Throw e => Throw e
                end
            | Some type => Return (Some (OnePart (parts !! typeMap type)))
            end
      end
  end.

(** [resolvePublicKey]: the [pem] part. *)
Definition resolvePublicKey (resolveTxt : Resolver) (identity selector : string)
  : Outcome (option IdentityParts) :=
  getDnsIdentityParts resolveTxt identity selector (Some pem).

(** Characters of a host or a selector: no separator of the record syntax
    and no white space. *)
Fixpoint plain (s : string) : bool :=
  match s with
  | EmptyString => true
  | String c rest =>
      negb (is_space c) && negb (Ascii.eqb c ";") && negb (Ascii.eqb c "=") && plain rest
  end.

(** The host record in its documented form,
    [v=1.0.0; u=host[:port]; s=<selector>]. *)
Definition hostRecord (u s : string) : string :=
  "v=1.0.0; u=" +:+ u +:+ "; s=" +:+ s.

(** The key record in its documented form,
    [v=1.0.0; k=<key-type>; p=<base64-PEM-without-headers>]. *)
Definition keyRecord (keyType base64 : string) : string :=
  "v=1.0.0; k=" +:+ keyType +:+ "; p=" +:+ base64.

(** *** A zone for the examples *)

(** The published record [v=1.0.0; u=host[:port]; s=<selector>], given in
    two character strings of one TXT record. *)
Definition exampleZone : Resolver :=
  fun name =>
    if String.eqb name "_btps.example.com" then
      TxtRecords [["v=1.0.0; u=btps.example.com:3443;"; " s=btps1"]]
    else if String.eqb name "btps1._btps.alice.example.com" then
      TxtRecords [["v=1.0.0; k=rsa; p=QUJDRA=="]]
    else if String.eqb name "btps1._btps.bob.example.com" then
      TxtRecords [["v=1.0.0; k=rsa; p=QUJDREVG"]]
    else TxtFailure "{}".

(** *** Further functions of the file *)

Definition pemToBase64 (pem : string) : string :=
  trim (remove_newlines
          (remove_first "-----END PUBLIC KEY-----"
             (remove_first "-----BEGIN PUBLIC KEY-----" pem))).

(** The lines [base64ToPem] puts between the header and the footer. *)
Definition pemLines (base64 : string) : list string :=
  match_runs 64 64 EmptyString base64.

(** Base64 text of 88 characters that ends in padding. *)
Definition paddedKey : string :=
  "TUlJQklqQU5CZ2txaGtpRzl3MEJBUUVGQUFPQ0FROEFNSUlCQ2dLQ0FRRUF4eXo3" +:+
  "bW5vUXJzdHV2d3h5ejAxMjM0PQ==".

End Identity.

(* ===================================================================== *)
(** ** The server response schema (zod 3) *)
(* ===================================================================== *)

Module Schema.
Import JS.

(** A zod parse ends [valid], [dirty] (issues were added, the value is
    kept) or [aborted] (the value is given up). *)
Inductive ParseStatus : Type := valid | dirty | aborted.

#[global] Instance ParseStatus_eq_dec : EqDecision ParseStatus.
Proof. solve_decision. Defined.

Inductive ZodIssueCode : Type :=
| invalid_type
| invalid_string
| invalid_enum_value
| invalid_literal
| invalid_union
| custom.

(** An issue names the path of the field it is about; [message] is the text
    the schema gives, [None] for the library's own wording. *)
Record ZodIssue := mkIssue {
  path : list string;
  code : ZodIssueCode;
  message : option string
}.

Record ParseReturn := mkParse {
  status : ParseStatus;
  issues : list ZodIssue
}.

(** A schema parses the value found at a path.  None of the schemas here
    transforms its input, so the parsed value is the input itself. *)
Definition ZodSchema : Type := list string -> jsval -> ParseReturn.

Definition OK : ParseReturn := mkParse valid [].

Definition INVALID (at_ : list string) (c : ZodIssueCode) : ParseReturn :=
  mkParse aborted [mkIssue at_ c None].

Definition z_string : ZodSchema :=
  fun at_ v => match v with JStr _ => OK | _ => INVALID at_ invalid_type end.

(** [z.string().regex(re, message)] and [z.string().datetime()]: a string
    that fails the check is reported and the parse goes on ([dirty]). *)
Definition z_string_check (check : string -> bool) (msg : option string) : ZodSchema :=
  fun at_ v =>
    match v with
    | JStr s => if check s then OK else mkParse dirty [mkIssue at_ invalid_string msg]
    | _ => INVALID at_ invalid_type
    end.

Definition z_boolean : ZodSchema :=
  fun at_ v => match v with JBool _ => OK | _ => INVALID at_ invalid_type end.

Definition z_number : ZodSchema :=
  fun at_ v => match v with JNum _ => OK | _ => INVALID at_ invalid_type end.

Definition z_enum (values : list string) : ZodSchema :=
  fun at_ v =>
    match v with
    | JStr s => if bool_decide (s ∈ values) then OK else INVALID at_ invalid_enum_value
    | _ => INVALID at_ invalid_type
    end.

Definition z_literal (value : string) : ZodSchema :=
  fun at_ v =>
    match v with
    | JStr s => if bool_decide (s = value) then OK else INVALID at_ invalid_literal
    | _ => INVALID at_ invalid_literal
    end.

Definition z_optional (inner : ZodSchema) : ZodSchema :=
  fun at_ v => match v with JUndefined => OK | _ => inner at_ v end.

(** [ParseStatus.mergeObjectSync]: one aborted field aborts the object. *)
Definition merge_status (a b : ParseStatus) : ParseStatus :=
  match a, b with
  | aborted, _ | _, aborted => aborted
  | dirty, _ | _, dirty => dirty
  | valid, valid => valid
  end.

Definition merge (results : list ParseReturn) : ParseReturn :=
  mkParse (foldr merge_status valid (map status results))
          (concat (map issues results)).

(** The parse of one field of an object: the field's schema, at the path
    extended by the key, on the value the object has for the key. *)
Definition fieldParse (at_ : list string) (props : list (string * jsval))
    (field : string * ZodSchema) : ParseReturn :=
  snd field (at_ ++ [fst field]) (prop props (fst field)).

(** [z.object(shape)]: every key of the shape is parsed, in order; unknown
    keys are dropped. *)
Definition z_object (shape : list (string * ZodSchema)) : ZodSchema :=
  fun at_ v =>
    match v with
    | JObj props => merge (map (fieldParse at_ props) shape)
    | _ => INVALID at_ invalid_type
    end.

(** [z.union(options)]: every option parses with an issue list of its own;
    a valid option makes the union valid and its list is dropped; otherwise
    the first dirty option is the result, with its issues; otherwise the
    union aborts with one [invalid_union] issue. *)
Definition z_union (options : list ZodSchema) : ZodSchema :=
  fun at_ v =>
    let results := map (fun option => option at_ v) options in
    match filter (fun r => status r = valid) results with
    | _ :: _ => OK
    | [] =>
        match filter (fun r => status r = dirty) results with
        | r :: _ => r
        | [] => INVALID at_ invalid_union
        end
    end.

(** [schema.superRefine(refinement)] (ZodEffects): when the inner parse is
    aborted the refinement is not run and the result is the aborted one;
    otherwise it runs on the value, and every issue it adds makes the result
    dirty.  The refinement gives its issues with paths relative to the
    object. *)
Definition z_superRefine (inner : ZodSchema) (refinement : jsval -> list ZodIssue)
  : ZodSchema :=
  fun at_ v =>
    let r := inner at_ v in
    match status r with
    | aborted => r
    | _ =>
        let added :=
          map (fun i => mkIssue (at_ ++ path i) (code i) (message i)) (refinement v) in
        mkParse (match added with [] => status r | _ :: _ => dirty end)
                (issues r ++ added)
    end.

(** [schema.safeParse(v)]: success when the parse is valid, the issues
    otherwise. *)
Inductive SafeParseReturn : Type :=
| success
| error (zodError : list ZodIssue).

Definition safeParse (schema : ZodSchema) (v : jsval) : SafeParseReturn :=
  let r := schema [] v in
  match status r with
  | valid => success
  | _ => error (issues r)
  end.

Definition BtpStatusSchema : ZodSchema :=
  z_object [("ok", z_boolean); ("code", z_number); ("message", z_optional z_string)].

(** Modelled from the spec: [BtpSignatureSchema] of schema.ts, which is not
    among the sources; the shape is that of the envelope's [signature] field
    and of the [BTPSignature] type. *)
Definition BtpSignatureSchema : ZodSchema :=
  z_object [("algorithm", z_literal "sha256");
            ("value", z_string);
            ("fingerprint", z_string)].

(** Modelled from the spec: [BtpEncryptionSchema] of schema.ts, from the
    envelope's [encryption] field and the [BTPEncryption] type. *)
Definition BtpEncryptionSchema : ZodSchema :=
  z_object [("algorithm", z_literal "aes-256-cbc");
            ("encryptedKey", z_string);
            ("iv", z_string);
            ("type", z_enum ["none"; "standardEncrypt"; "2faEncrypt"])].

(** The callback given to [superRefine]. *)
Definition serverResponseRefinement (data : jsval) : list ZodIssue :=
  match data with
  | JObj data =>
      (if truthy (prop data "signature") then
         (if negb (truthy (prop data "signedBy")) then
            [mkIssue ["signedBy"] custom
                     (Some "signedBy is required when signature is present")]
          else []) ++
         (if negb (truthy (prop data "selector")) then
            [mkIssue ["selector"] custom
                     (Some "selector is required when signature is present")]
          else [])
       else []) ++
      (if truthy (prop data "encryption") && negb (is_string (prop data "document")) then
         [mkIssue ["document"] custom (Some "When encrypted, document must be a string")]
       else [])
  | _ => []
  end.

(** The three cross-field invariants of the envelope, for a candidate
    object; a field is present when the object has a value for it. *)
Definition present (c : list (string * jsval)) (k : string) : Prop :=
  prop c k <> JUndefined.

Definition encryptionInvariant (c : list (string * jsval)) : Prop :=
  present c "encryption" -> is_string (prop c "document") = true.

Definition signatureInvariant (c : list (string * jsval)) : Prop :=
  present c "signature" -> present c "signedBy" /\ present c "selector".

Definition versionInvariant (c : list (string * jsval)) : Prop :=
  exists v, prop c "version" = JStr v /\ semver v = true.

(** The error names a field: one of its issues has the field as its path. *)
Definition names (r : SafeParseReturn) (field : string) : Prop :=
  exists zodError issue,
    r = error zodError /\ In issue zodError /\ path issue = [field].

Section ServerResponse.

(** The schemas of other files and zod's own datetime pattern are
    parameters of the response schema. *)
Variable identitySchema : ZodSchema.
Variable BtpServerResDocsSchema : ZodSchema.
Variable datetime : string -> bool.

Definition BtpServerResponseShape : list (string * ZodSchema) :=
  [("version",
    z_string_check semver
      (Some "Version must be in semantic versioning format (e.g., 1.0.0)"));
   ("status", BtpStatusSchema);
   ("id", z_string);
   ("issuedAt", z_string_check datetime None);
   ("type", z_enum ["btps_error"; "btps_response"]);
   ("reqId", z_optional z_string);
   ("document", z_optional (z_union [BtpServerResDocsSchema; z_string]));
   ("signature", z_optional BtpSignatureSchema);
   ("encryption", z_optional BtpEncryptionSchema);
   ("signedBy", z_optional identitySchema);
   ("selector", z_optional z_string)].

Definition BtpServerResponseSchema : ZodSchema :=
  z_superRefine (z_object BtpServerResponseShape) serverResponseRefinement.

End ServerResponse.

(** *** Responses for the examples *)

(** A response whose [id] is a number and whose signature comes without
    [signedBy] and [selector]. *)
Definition illTypedResponse : list (string * jsval) :=
  [("version", JStr "1.0.0");
   ("status", JObj [("ok", JBool true); ("code", JNum 200)]);
   ("id", JNum 5);
   ("issuedAt", JStr "2025-01-01T00:00:00Z");
   ("type", JStr "btps_response");
   ("signature", JObj [("algorithm", JStr "sha256"); ("value", JStr "c2ln");
                       ("fingerprint", JStr "ZnA=")])].

(** The same response with a string [id], and a signed one that is well
    formed. *)
Definition unsignedByResponse : list (string * jsval) :=
  [("version", JStr "1.0.0");
   ("status", JObj [("ok", JBool true); ("code", JNum 200)]);
   ("id", JStr "r-1");
   ("issuedAt", JStr "2025-01-01T00:00:00Z");
   ("type", JStr "btps_response");
   ("signature", JObj [("algorithm", JStr "sha256"); ("value", JStr "c2ln");
                       ("fingerprint", JStr "ZnA=")])].

Definition signedResponse : list (string * jsval) :=
  unsignedByResponse ++ [("signedBy", JStr "alice$example.com"); ("selector", JStr "btps1")].

Definition anyDatetime : string -> bool := fun _ => true.

End Schema.

(* ===================================================================== *)
(** ** The JSON trust store (core/trust/storage/JsonTrustStore.ts) *)
(* ===================================================================== *)

Module TrustStore.
Import JS.

Inductive TrustStatus : Type := requested | accepted | revoked | expired.

(** Modelled from the spec: [BTPTrustRecord] of core/trust/types.ts, which is
    not among the sources; the fields are those of the spec's TrustRecord. *)
Record BTPTrustRecord := mkRecord {
  id : string;
  senderId : string;
  receiverId : string;
  status : TrustStatus;
  issuedAt : string;
  decidedAt : option string;
  expiresAt : option string;
  policy : option (list (string * jsval))
}.


(** [Partial<BTPTrustRecord>]: each field is named by the patch, with its new
    value, or left out. *)
Record TrustPatch := mkPatch {
  patch_id : option string;
  patch_senderId : option string;
  patch_receiverId : option string;
  patch_status : option TrustStatus;
  patch_issuedAt : option string;
  patch_decidedAt : option string;
  patch_expiresAt : option string;
  patch_policy : option (list (string * jsval))
}.


(** One field of [{ ...record, ...patch }]. *)
Definition spread {A : Type} (old : A) (new : option A) : A := default old new.

Definition spreadOpt {A : Type} (old new : option A) : option A :=
  match new with Some v => Some v | None => old end.

(** [{ ...record, ...patch }]. *)
Definition mergePatch (record : BTPTrustRecord) (patch : TrustPatch) : BTPTrustRecord :=
  mkRecord (spread (id record) (patch_id patch))
           (spread (senderId record) (patch_senderId patch))
           (spread (receiverId record) (patch_receiverId patch))
           (spread (status record) (patch_status patch))
           (spread (issuedAt record) (patch_issuedAt patch))
           (spreadOpt (decidedAt record) (patch_decidedAt patch))
           (spreadOpt (expiresAt record) (patch_expiresAt patch))
           (spreadOpt (policy record) (patch_policy patch)).

(** *** The JavaScript [Map]: keys in insertion order, each once *)

Definition RecordMap : Type := list (string * BTPTrustRecord).

Fixpoint Map_get (m : RecordMap) (k : string) : option BTPTrustRecord :=
  match m with
  | [] => None
  | (k', v) :: rest => if String.eqb k' k then Some v else Map_get rest k
  end.

(** [m.set(k, v)]: in place for a key the map has, at the end otherwise. *)
Fixpoint Map_set (m : RecordMap) (k : string) (v : BTPTrustRecord) : RecordMap :=
  match m with
  | [] => [(k, v)]
  | (k', v') :: rest =>
      if String.eqb k' k then (k, v) :: rest else (k', v') :: Map_set rest k v
  end.

Definition Map_has (m : RecordMap) (k : string) : bool :=
  match Map_get m k with Some _ => true | None => false end.

Definition Map_delete (m : RecordMap) (k : string) : RecordMap :=
  filter (fun entry => fst entry ≠ k) m.

Definition Map_values (m : RecordMap) : list BTPTrustRecord := map snd m.

Definition Map_keys (m : RecordMap) : list string := map fst m.

(** [for (const r of records) recordMap.set(r.id, r)] on a cleared map. *)
Definition loadRecords (records : list BTPTrustRecord) : RecordMap :=
  foldl (fun m r => Map_set m (id r) r) [] records.

(** *** The file system *)

(** What [JSON.parse] gives for the text of the file: a bare array of
    records, an object of named arrays of records, or a [SyntaxError]. *)
Inductive Json : Type :=
| JsonArray (records : list BTPTrustRecord)
| JsonObject (entities : list (string * list BTPTrustRecord)).

Inductive FileText : Type :=
| Parsable (json : Json)
| Unparsable.

Record File := mkFile {
  text : FileText;
  mtimeMs : Z
}.

Inductive FsCall : Type :=
| Stat (path : string)
| ExistsSync (path : string)
| ReadFile (path : string)
| WriteFile (path : string)
| Rename (oldPath newPath : string)
| Lock (path : string)
| Release (path : string).

(** The world outside the process: the files, the clock that stamps what is
    written, which calls the disk refuses, the lock files that exist, and the
    calls made so far (oldest first). *)
Record World := mkWorld {
  files : gmap string File;
  now : Z;
  failing : FsCall -> bool;
  locks : list string;
  calls : list FsCall
}.

Inductive Error : Type :=
| ENOENT (path : string)
| EIO (call : FsCall)
| ELOCKED (path : string)
| SyntaxError
| TypeError
| MustNotIncludeId
| AlreadyExists (senderId receiverId : string)
| NotFound (senderId receiverId : option string).

(** A promise settles: it resolves with a value or rejects with an error. *)
Inductive Settled (A : Type) : Type :=
| Resolved (value : A)
| Rejected (reason : Error).
Arguments Resolved {A} value.
Arguments Rejected {A} reason.

Definition IO (A : Type) : Type := World -> Settled A * World.

Definition called (c : FsCall) (w : World) : World :=
  mkWorld (files w) (now w) (failing w) (locks w) (calls w ++ [c]).

Definition withFiles (fs : gmap string File) (w : World) : World :=
  mkWorld fs (now w) (failing w) (locks w) (calls w).

Definition withLocks (ls : list string) (w : World) : World :=
  mkWorld (files w) (now w) (failing w) ls (calls w).

Definition fs_stat (path : string) : IO Z :=
  fun w =>
    let w := called (Stat path) w in
    if failing w (Stat path) then (Rejected (EIO (Stat path)), w)
    else match files w !! path with
         | Some f => (Resolved (mtimeMs f), w)
         | None => (Rejected (ENOENT path), w)
         end.

Definition existsSync (path : string) : IO bool :=
  fun w =>
    let w := called (ExistsSync path) w in
    (Resolved (bool_decide (is_Some (files w !! path))), w).

Definition fs_readFile (path : string) : IO FileText :=
  fun w =>
    let w := called (ReadFile path) w in
    if failing w (ReadFile path) then (Rejected (EIO (ReadFile path)), w)
    else match files w !! path with
         | Some f => (Resolved (text f), w)
         | None => (Rejected (ENOENT path), w)
         end.

Definition fs_writeFile (path : string) (data : FileText) : IO unit :=
  fun w =>
    let w := called (WriteFile path) w in
    if failing w (WriteFile path) then (Rejected (EIO (WriteFile path)), w)
    else (Resolved tt, withFiles (<[path := mkFile data (now w)]> (files w)) w).

Definition fs_rename (oldPath newPath : string) : IO unit :=
  fun w =>
    let w := called (Rename oldPath newPath) w in
    if failing w (Rename oldPath newPath) then (Rejected (EIO (Rename oldPath newPath)), w)
    else match files w !! oldPath with
         | Some f => (Resolved tt, withFiles (<[newPath := f]> (delete oldPath (files w))) w)
         | None => (Rejected (ENOENT oldPath), w)
         end.

(** [lock(path, ...)] of proper-lockfile: refused for a file that does not
    exist or whose lock is held (the retries spent); [release] removes it. *)
Definition lock (path : string) : IO unit :=
  fun w =>
    let w := called (Lock path) w in
    if failing w (Lock path) then (Rejected (EIO (Lock path)), w)
    else if bool_decide (path ∈ locks w) then (Rejected (ELOCKED path), w)
    else match files w !! path with
         | Some _ => (Resolved tt, withLocks (path :: locks w) w)
         | None => (Rejected (ENOENT path), w)
         end.

Definition release (path : string) : IO unit :=
  fun w =>
    let w := called (Release path) w in
    if failing w (Release path) then (Rejected (EIO (Release path)), w)
    else (Resolved tt, withLocks (filter (fun p => p ≠ path) (locks w)) w).

(** *** The store *)

(** The fields of the class.  [hasEntity] is fixed by the constructor from
    [entityName]; [writeScheduled] is the pending timer of the debounced
    write. *)
Record JsonTrustStore := mkStore {
  recordMap : RecordMap;
  dirty : bool;
  filePath : string;
  entityName : option string;
  hasEntity : bool;
  writeScheduled : bool;
  lastChangedMtime : Z
}.

(** lodash [isEmpty] on the entity name: [undefined] and the empty string. *)
Definition isEmpty (entityName : option string) : bool := falsy entityName.

(** [new JsonTrustStore({ connection, entityName })]. *)
Definition construct (connection : string) (entityName : option string) : JsonTrustStore :=
  mkStore [] false connection entityName (negb (isEmpty entityName)) false 0.

(** [this.entityName as string], used where [hasEntity] holds. *)
Definition entityKey (this : JsonTrustStore) : string :=
  default EmptyString (entityName this).

(** Methods run on the store and the world; a rejection keeps what was
    changed before it. *)
Definition M (A : Type) : Type :=
  JsonTrustStore * World -> Settled A * (JsonTrustStore * World).

Definition ret {A : Type} (a : A) : M A := fun s => (Resolved a, s).

Definition throw {A : Type} (e : Error) : M A := fun s => (Rejected e, s).

Definition bind {A B : Type} (m : M A) (k : A -> M B) : M B :=
  fun s =>
    match m s with
    | (Resolved a, s') => k a s'
    | (Rejected e, s') => (Rejected e, s')
    end.

(** [try { body } finally { handler }]: the handler runs either way, and its
    own rejection replaces the outcome of the body. *)
Definition try_finally {A : Type} (body : M A) (handler : M unit) : M A :=
  fun s =>
    let '(r, s') := body s in
    match handler s' with
    | (Resolved _, s'') => (r, s'')
    | (Rejected e, s'') => (Rejected e, s'')
    end.

Definition io {A : Type} (call : IO A) : M A :=
  fun s =>
    let '(r, w) := call (snd s) in (r, (fst s, w)).

Definition this : M JsonTrustStore := fun s => (Resolved (fst s), s).

Definition assign (f : JsonTrustStore -> JsonTrustStore) : M unit :=
  fun s => (Resolved tt, (f (fst s), snd s)).

Declare Scope store_scope.
Delimit Scope store_scope with store.
Notation "'let*' x ':=' m 'in' k" := (bind m (fun x => k))
  (at level 10, x name, m at level 100, k at level 200) : store_scope.
Notation "m ';;' k" := (bind m (fun _ => k))
  (at level 100, k at level 200, right associativity) : store_scope.
Local Open Scope store_scope.

Definition set_recordMap (m : RecordMap) (s : JsonTrustStore) : JsonTrustStore :=
  mkStore m (dirty s) (filePath s) (entityName s) (hasEntity s) (writeScheduled s)
          (lastChangedMtime s).

Definition set_dirty (d : bool) (s : JsonTrustStore) : JsonTrustStore :=
  mkStore (recordMap s) d (filePath s) (entityName s) (hasEntity s) (writeScheduled s)
          (lastChangedMtime s).

Definition set_writeScheduled (b : bool) (s : JsonTrustStore) : JsonTrustStore :=
  mkStore (recordMap s) (dirty s) (filePath s) (entityName s) (hasEntity s) b
          (lastChangedMtime s).

Definition set_lastChangedMtime (t : Z) (s : JsonTrustStore) : JsonTrustStore :=
  mkStore (recordMap s) (dirty s) (filePath s) (entityName s) (hasEntity s)
          (writeScheduled s) t.

(** [this.hasEntity ? { [this.entityName]: records } : records], as the text
    [JSON.stringify] writes and [JSON.parse] reads back. *)
Definition contents (s : JsonTrustStore) (records : list BTPTrustRecord) : FileText :=
  Parsable (if hasEntity s then JsonObject [(entityKey s, records)] else JsonArray records).

(** [obj[name]] for an object of named arrays. *)
Fixpoint entity (entities : list (string * list BTPTrustRecord)) (name : string)
  : option (list BTPTrustRecord) :=
  match entities with
  | [] => None
  | (n, records) :: rest => if String.eqb n name then Some records else entity rest name
  end.

(** [this.hasEntity ? raw?.[this.entityName] || [] : raw], and whether
    [for ... of] can iterate it: an object is not iterable, and an array has
    no property of the entity's name. *)
Definition recordsOf (s : JsonTrustStore) (raw : Json) : option (list BTPTrustRecord) :=
  if hasEntity s then
    match raw with
    | JsonObject entities => Some (default [] (entity entities (entityKey s)))
    | JsonArray _ => Some []
    end
  else
    match raw with
    | JsonArray records => Some records
    | JsonObject _ => None
    end.

Definition JSON_parse (t : FileText) : M Json :=
  match t with
  | Parsable json => ret json
  | Unparsable => throw SyntaxError
  end.

(** The debounced write: a call (re)starts the one-second timer. *)
Definition writeDebounced : M unit := assign (set_writeScheduled true).

Definition init : M unit :=
  let* s := this in
  let* found := io (existsSync (filePath s)) in
  (if found then ret tt else io (fs_writeFile (filePath s) (contents s []))) ;;
  let* data := io (fs_readFile (filePath s)) in
  let* raw := JSON_parse data in
  assign (set_recordMap []) ;;
  match recordsOf s raw with
  | Some records => assign (set_recordMap (loadRecords records))
  | None => throw TypeError
  end.

Definition writeToFile : M unit :=
  let* s := this in
  if negb (dirty s) then ret tt
  else
    assign (set_dirty false) ;;
    let tmpPath := filePath s +:+ ".tmp" in
    (* a lock that is refused leaves [release] undefined: nothing to undo *)
    io (lock (filePath s)) ;;
    try_finally
      (let* s := this in
       let records := Map_values (recordMap s) in
       io (fs_writeFile tmpPath (contents s records)) ;;
       io (fs_rename tmpPath (filePath s)) ;;
       let* mtime := io (fs_stat (filePath s)) in
       assign (set_lastChangedMtime mtime))
      (io (release (filePath s))).

Definition flushNow : M unit := writeToFile.

Definition flushAndReload : M unit :=
  writeToFile ;;
  assign (set_recordMap []) ;;
  init.

Definition reloadIfChanged : M unit :=
  let* s := this in
  let* mtime := io (fs_stat (filePath s)) in
  let* s := this in
  if bool_decide (mtime ≠ lastChangedMtime s) then
    flushAndReload ;;
    assign (set_lastChangedMtime mtime)
  else ret tt.

(** [if (this.recordMap.size === 0) await this.init()], the first line of
    [getById], [delete] and [getAll]. *)
Definition ensureLoaded : M unit :=
  let* s := this in
  if bool_decide (length (recordMap s) = 0) then init else ret tt.

Definition getById (computedId : string) : M (option BTPTrustRecord) :=
  ensureLoaded ;;
  reloadIfChanged ;;
  let* s := this in
  ret (Map_get (recordMap s) computedId).

Section Create.

(** [computeTrustId] of core/trust/index.ts is not among the sources: a
    function of the two identities. *)
Variable computeTrustId : string -> string -> string.



End Create.

Definition update (computedId : string) (patch : TrustPatch) : M BTPTrustRecord :=
  let* found := getById computedId in
  match found with
  | None => throw (NotFound (patch_senderId patch) (patch_receiverId patch))
  | Some record =>
      let updated := mergePatch record patch in
      let* s := this in
      assign (set_recordMap (Map_set (recordMap s) computedId updated)) ;;
      assign (set_dirty true) ;;
      writeDebounced ;;
      ret updated
  end.

Definition delete_ (computedId : string) : M unit :=
  ensureLoaded ;;
  let* s := this in
  if Map_has (recordMap s) computedId then
    assign (set_recordMap (Map_delete (recordMap s) computedId)) ;;
    assign (set_dirty true) ;;
    writeDebounced
  else ret tt.




(** Two stores of the same file and entity. *)
Definition sameConfig (s s' : JsonTrustStore) : Prop :=
  filePath s' = filePath s /\ entityName s' = entityName s /\ hasEntity s' = hasEntity s.

(** Every record sits under its own id, and no key occurs twice. *)
Definition wellKeyed (m : RecordMap) : Prop :=
  NoDup (Map_keys m) /\ Forall (fun entry => fst entry = id (snd entry)) m.

(** The process starts again: a new store object for the same file and
    entity. *)
Definition restart (s : JsonTrustStore) : JsonTrustStore :=
  construct (filePath s) (entityName s).

(** What a method leaves in the store, whether it resolves or rejects. *)
Definition storeAfter {A : Type} (m : M A) (s : JsonTrustStore) (w : World)
  : JsonTrustStore := fst (snd (m (s, w))).

Definition worldAfter {A : Type} (m : M A) (s : JsonTrustStore) (w : World)
  : World := snd (snd (m (s, w))).

Definition settled {A : Type} (m : M A) (s : JsonTrustStore) (w : World)
  : Settled A := fst (m (s, w)).

(** The store has seen the file as it is: the file exists, its mtime is the
    recorded one, and the disk answers a stat. *)
Definition current (s : JsonTrustStore) (w : World) : Prop :=
  exists f, files w !! filePath s = Some f /\ mtimeMs f = lastChangedMtime s /\
            failing w (Stat (filePath s)) = false.

(** A method that leaves what the disk refuses as it was. *)
Definition sameDisk {A : Type} (m : M A) : Prop :=
  forall s w, failing (worldAfter m s w) = failing w.

(** A property of the store that a method keeps, however it settles. *)
Definition preserves {A : Type} (P : JsonTrustStore -> Prop) (m : M A) : Prop :=
  forall s w, P s -> P (storeAfter m s w).

(** *** Stores and worlds for the examples *)

(** A stored record, the store holding it, and the world with its file. *)
Definition aliceToBob : BTPTrustRecord :=
  mkRecord "k1" "alice$a.example" "bob$b.example" accepted "2025-01-01T00:00:00Z"
           None None None.


Definition healthy : FsCall -> bool := fun _ => false.



(** A patch that revokes the record and names no id. *)
Definition revokeOnly : TrustPatch :=
  mkPatch None None None (Some revoked) None (Some "2025-02-01T00:00:00Z") None None.



(** A record another process wrote, and the world after it replaced the
    file (a later mtime than the store recorded). *)
Definition daveToBob : BTPTrustRecord :=
  mkRecord "k9" "dave$d.example" "bob$b.example" accepted "2025-04-01T00:00:00Z"
           None None None.


(** The file after an edit that left text [JSON.parse] refuses. *)
Definition brokenDisk : World :=
  mkWorld {[ "trust.json" := mkFile Unparsable 8 ]} 9 healthy [] [].

(** A disk without any file. *)
Definition emptyDisk : World := mkWorld ∅ 9 healthy [] [].

(** A store with a pending change, and a disk that refuses every write. *)
Definition dirtyStore : JsonTrustStore :=
  mkStore [("k1", aliceToBob); ("k9", daveToBob)] true "trust.json" None false true 7.

Definition readOnlyDisk : FsCall -> bool :=
  fun call => match call with WriteFile _ => true | _ => false end.

Definition worldC : World :=
  mkWorld {[ "trust.json" := mkFile (Parsable (JsonArray [aliceToBob])) 7 ]}
          9 readOnlyDisk [] [].

End TrustStore.

(* ===================================================================== *)
(** ** The client connector: retry policy and life-cycle *)
(* ===================================================================== *)

Module Client.
Import JS.

(** [haystack.includes(needle)]. *)
Fixpoint includes (needle haystack : string) : bool :=
  String.prefix needle haystack ||
  match haystack with
  | EmptyString => false
  | String _ rest => includes needle rest
  end.

Record BtpsClientOptions := mkOptions {
  identity : string;
  maxRetries : Z;
  retryDelayMs : Z;
  connectionTimeoutMs : Z
}.

(** An error reaching the retry policy: its message, and whether it is a
    [SyntaxError] (an unparseable line). *)
Record BTPError := mkError {
  isSyntaxError : bool;
  message : string
}.

Record BTPSRetryInfo := mkRetryInfo {
  willRetry : bool;
  retriesLeft : Z;
  nextDelayMs : Z
}.

(** The states of the connector. *)
Inductive ConnectorState : Type :=
| Idle | Resolving | Connecting | Ready | Sending | AwaitingResponse
| Closing | Closed | Destroyed.

Inductive EventName : Type :=
| on_connected | on_message | on_message_sent | on_error | on_end | on_close.

#[global] Instance EventName_eq_dec : EqDecision EventName.
Proof. solve_decision. Defined.

Inductive Event : Type :=
| Connected
| Message (document : string)
| MessageSent (artifactId : string)
| Error (error : BTPError) (info : BTPSRetryInfo)
| End (info : BTPSRetryInfo)
| Close.

Definition nameOf (e : Event) : EventName :=
  match e with
  | Connected => on_connected
  | Message _ => on_message
  | MessageSent _ => on_message_sent
  | Error _ _ => on_error
  | End _ => on_end
  | Close => on_close
  end.

(** A subscriber: the handler (named by a number) and the event it is
    registered for. *)
Record Subscriber := mkSubscriber {
  handler : nat;
  event : EventName
}.

Inductive SocketState : Type :=
| NoSocket
| Dialing
| Connected_
| TornDown.

#[global] Instance SocketState_eq_dec : EqDecision SocketState.
Proof. solve_decision. Defined.

(** Modelled from the spec: the fields of the client connector.
    client/btpsClient.ts is not among the sources (its unit tests are); the
    fields are those the tests set and read ([retries], [destroyed],
    [shouldRetry], [socket], [backpressureQueue], the emitter's listeners)
    and the connector state of the spec's state machine. *)
Record BtpsClient := mkClient {
  options : BtpsClientOptions;
  state : ConnectorState;
  retries : Z;
  destroyed : bool;
  shouldRetry : bool;
  socket : SocketState;
  backpressureQueue : list string;
  subscribers : list Subscriber
}.

(** [new BtpsClient(options)]. *)
Definition construct (options : BtpsClientOptions) : BtpsClient :=
  mkClient options Idle 0 false true NoSocket [] [].

(** Modelled from the spec: the terminal error classes of the retry policy
    (terminal config, terminal crypto, terminal parse), with the messages
    the unit tests of [isNonRetryableError] list. *)
Definition terminalMessages : list string :=
  ["invalid identity"; "invalid btpAddress"; "invalid hostname";
   "unsupported protocol"; "signature verification failed"; "destroyed"].

Definition isNonRetryableError (error : BTPError) : bool :=
  isSyntaxError error ||
  existsb (fun phrase => includes phrase (message error)) terminalMessages.

(** The optional [error] argument: no error is in no terminal class. *)
Definition terminal (error : option BTPError) : bool :=
  match error with
  | Some e => isNonRetryableError e
  | None => false
  end.

(** Modelled from the spec: the four conjuncts of [willRetry]. *)
Definition willRetryOf (c : BtpsClient) (error : option BTPError) : bool :=
  shouldRetry c && negb (destroyed c) &&
  (retries c <? maxRetries (options c))%Z && negb (terminal error).


(** Modelled from the spec: [getRetryInfo] as the unit tests pin it down.
    [willRetry] is the spec's conjunction; [retriesLeft] does not count the
    attempt in progress, which is what the test of the source expects
    ([retriesLeft] is 1 for [maxRetries] 2 and [retries] 0). *)
Definition getRetryInfo (c : BtpsClient) (error : option BTPError) : BTPSRetryInfo :=
  mkRetryInfo (willRetryOf c error)
              (Z.max 0 (maxRetries (options c) - retries c - 1))
              (retryDelayMs (options c)).

(** *** The unit tests of [getRetryInfo], as checks of an implementation *)

Definition RetryPolicy : Type := BtpsClient -> option BTPError -> BTPSRetryInfo.

(** [mockOptions] of the test file. *)
Definition mockOptions : BtpsClientOptions := mkOptions "test$example.com" 2 10 100.

Definition set_retries (n : Z) (c : BtpsClient) : BtpsClient :=
  mkClient (options c) (state c) n (destroyed c) (shouldRetry c) (socket c)
           (backpressureQueue c) (subscribers c).

Definition set_destroyed (b : bool) (c : BtpsClient) : BtpsClient :=
  mkClient (options c) (state c) (retries c) b (shouldRetry c) (socket c)
           (backpressureQueue c) (subscribers c).

Definition set_shouldRetry (b : bool) (c : BtpsClient) : BtpsClient :=
  mkClient (options c) (state c) (retries c) (destroyed c) b (socket c)
           (backpressureQueue c) (subscribers c).

(** 'should return willRetry true if under maxRetries and not destroyed':
    [expect(info.willRetry).toBe(true); expect(info.retriesLeft).toBe(1)]. *)
Definition test_willRetry_under_maxRetries (policy : RetryPolicy) : bool :=
  let client := set_shouldRetry true (set_destroyed false (set_retries 0 (construct mockOptions))) in
  let info := policy client None in
  Bool.eqb (willRetry info) true && (retriesLeft info =? 1)%Z.

(** 'should return willRetry false if destroyed'. *)
Definition test_no_retry_if_destroyed (policy : RetryPolicy) : bool :=
  let client := set_destroyed true (construct mockOptions) in
  Bool.eqb (willRetry (policy client None)) false.

(** 'should return willRetry false for SyntaxError'. *)
Definition test_no_retry_for_SyntaxError (policy : RetryPolicy) : bool :=
  let client := construct mockOptions in
  Bool.eqb (willRetry (policy client (Some (mkError true "bad json")))) false.

(** 'should return willRetry false for non-retryable error'. *)
Definition test_no_retry_for_terminal_error (policy : RetryPolicy) : bool :=
  let client := construct mockOptions in
  Bool.eqb (willRetry (policy client (Some (mkError false "invalid identity")))) false.

(** 'should return willRetry false if shouldRetry is false'. *)
Definition test_no_retry_if_shouldRetry_false (policy : RetryPolicy) : bool :=
  let client := set_shouldRetry false (construct mockOptions) in
  Bool.eqb (willRetry (policy client None)) false.

Definition getRetryInfo_tests (policy : RetryPolicy) : bool :=
  test_willRetry_under_maxRetries policy &&
  test_no_retry_if_destroyed policy &&
  test_no_retry_for_SyntaxError policy &&
  test_no_retry_for_terminal_error policy &&
  test_no_retry_if_shouldRetry_false policy.

(** *** The life-cycle *)

(** What the caller and the environment do to a client. *)
Inductive Input : Type :=
| connect (recipient : string) (handlers : list Subscriber)
| send (artifactId line : string)
| end_
| destroy
| hostResolved (found : bool)
| secureConnect
| connectionTimeout
| socketError (message : string)
| lineReceived (document : option string)
| remoteEnd.

(** One delivery: the handler called and the event it is called with. *)
Definition Delivery : Type := (nat * Event)%type.

(** [emitter.emit(event)]: every subscriber of the event's name, in order of
    registration. *)
Definition emit (c : BtpsClient) (e : Event) : list Delivery :=
  map (fun s => (handler s, e))
      (filter (fun s => event s = nameOf e) (subscribers c)).

(** What a call does: the client after it, the deliveries it made, and the
    exception it threw to its caller, if any. *)
Record Step := mkStep {
  after : BtpsClient;
  delivered : list Delivery;
  thrown : option string
}.

Definition set_state (s : ConnectorState) (c : BtpsClient) : BtpsClient :=
  mkClient (options c) s (retries c) (destroyed c) (shouldRetry c) (socket c)
           (backpressureQueue c) (subscribers c).

Definition set_socket (s : SocketState) (c : BtpsClient) : BtpsClient :=
  mkClient (options c) (state c) (retries c) (destroyed c) (shouldRetry c) s
           (backpressureQueue c) (subscribers c).

Definition set_queue (q : list string) (c : BtpsClient) : BtpsClient :=
  mkClient (options c) (state c) (retries c) (destroyed c) (shouldRetry c) (socket c)
           q (subscribers c).

Definition set_subscribers (l : list Subscriber) (c : BtpsClient) : BtpsClient :=
  mkClient (options c) (state c) (retries c) (destroyed c) (shouldRetry c) (socket c)
           (backpressureQueue c) l.

Definition emitting (c : BtpsClient) (e : Event) : Step := mkStep c (emit c e) None.

Definition silent (c : BtpsClient) : Step := mkStep c [] None.

Definition failure (c : BtpsClient) (isSyntax : bool) (msg : string) : Step :=
  let e := mkError isSyntax msg in
  emitting c (Error e (getRetryInfo c (Some e))).

(** Modelled from the spec: [destroy()] moves to [Destroyed], tears down
    the socket, clears the queue and removes all subscribers; a second call
    does nothing. *)
Definition destroyClient (c : BtpsClient) : BtpsClient :=
  if destroyed c then c
  else mkClient (options c) Destroyed (retries c) true (shouldRetry c)
                (match socket c with NoSocket => NoSocket | _ => TornDown end)
                [] [].

(** Modelled from the spec: the transitions of a client that is not
    destroyed.  [connect] registers the caller's handlers, parses the
    recipient and starts resolving; failures are emitted as [error] events,
    never thrown. *)
Definition liveStep (c : BtpsClient) (i : Input) : Step :=
  match i with
  | destroy => silent (destroyClient c)
  | connect recipient handlers =>
      let c := set_subscribers (subscribers c ++ handlers) c in
      match Identity.parseIdentity recipient with
      | None => failure c false "invalid identity"
      | Some _ => silent (set_state Resolving c)
      end
  | hostResolved found =>
      if found then silent (set_socket Dialing (set_state Connecting c))
      else failure c false "DNS resolution failed"
  | secureConnect =>
      let c := set_socket Connected_ (set_state Ready c) in
      emitting c Connected
  | connectionTimeout =>
      match state c with
      | Ready | Sending | AwaitingResponse => silent c
      | _ => failure (set_socket TornDown c) false "connection timeout"
      end
  | socketError msg => failure c false msg
  | send artifactId line =>
      match state c with
      | Ready =>
          let c := set_state AwaitingResponse c in
          emitting c (MessageSent artifactId)
      | _ => silent (set_queue (backpressureQueue c ++ [line]) c)
      end
  | lineReceived (Some document) => emitting c (Message document)
  | lineReceived None => failure c true "bad json"
  | end_ | remoteEnd =>
      let c := set_state Closed c in
      emitting c (End (getRetryInfo c None))
  end.

(** Modelled from the spec: [Destroyed] is a terminal sink; a destroyed
    client ignores every call and every socket event. *)
Definition step (c : BtpsClient) (i : Input) : Step :=
  if destroyed c then silent c else liveStep c i.

(** A run: the inputs one after the other; the deliveries of all of them,
    and the first exception thrown. *)
Fixpoint run (c : BtpsClient) (inputs : list Input) : Step :=
  match inputs with
  | [] => silent c
  | i :: rest =>
      let s := step c i in
      let r := run (after s) rest in
      mkStep (after r) (delivered s ++ delivered r)
             (match thrown s with Some e => Some e | None => thrown r end)
  end.

(** *** The unit tests of [destroy], as checks of the life-cycle *)

(** The client of the tests: constructed from [mockOptions], with the mock
    socket assigned. *)
Definition testClient : BtpsClient := set_socket Connected_ (construct mockOptions).

(** 'should allow double destruction safely': neither call throws, and
    [destroyed] is true. *)
Definition test_double_destruction : bool :=
  let first := step testClient destroy in
  let second := step (after first) destroy in
  bool_decide (thrown first = None) && bool_decide (thrown second = None) &&
  destroyed (after second).

(** 'should remove all event listeners after destroy'. *)
Definition test_listeners_removed : bool :=
  let client :=
    set_subscribers [mkSubscriber 1 on_message; mkSubscriber 2 on_error] testClient in
  bool_decide (length (subscribers (after (step client destroy))) = 0).

(** 'should call socket.destroy and remove listeners when client.destroy is
    called'. *)
Definition test_socket_destroyed : bool :=
  let client := after (step testClient destroy) in
  bool_decide (socket client = TornDown) && destroyed client &&
  bool_decide (length (subscribers client) = 0).

(** 'should clean up and prevent further use': [connect] after [destroy]
    does not throw. *)
Definition test_connect_after_destroy : bool :=
  let client := after (step testClient destroy) in
  bool_decide (thrown (step client (connect "test$example.com" [])) = None).

Definition destroy_tests : bool :=
  test_double_destruction && test_listeners_removed &&
  test_socket_destroyed && test_connect_after_destroy.

(** *** A client for the examples *)

(** A connected client with one subscriber per event. *)
Definition liveClient : BtpsClient :=
  mkClient mockOptions Ready 0 false true Connected_ ["queued"]
           [mkSubscriber 1 on_message; mkSubscriber 2 on_error; mkSubscriber 3 on_end].

Definition laterInputs : list Input :=
  [lineReceived (Some "doc"); socketError "boom"; connect "bob$b.example" [mkSubscriber 4 on_end];
   remoteEnd; destroy].

End Client.

(* ===================================================================== *)
(** * Properties *)
(* ===================================================================== *)

(** ** Strings *)

Section StringFacts.
Import JS.

Lemma append_cons (x : ascii) (a b : string) :
  String x a +:+ b = String x (a +:+ b).
Proof. reflexivity. Qed.

Lemma is_empty_true (s : string) : is_empty s = true <-> s = EmptyString.
Proof. destruct s; simpl; split; congruence. Qed.

Lemma is_empty_false (s : string) : is_empty s = false <-> s <> EmptyString.
Proof. destruct s; simpl; split; congruence. Qed.

Lemma split_not_nil (sep : ascii) (s : string) : split sep s <> [].
Proof.
  induction s as [|c s IH]; simpl; [discriminate |].
  destruct (Ascii.eqb c sep); [discriminate |].
  destruct (split sep s); discriminate.
Qed.

(** A string without the separator is its own single segment. *)
Lemma split_without_sep (sep : ascii) (s : string) :
  has_char sep s = false -> split sep s = [s].
Proof.
  induction s as [|c s IH]; simpl; [reflexivity |].
  intros H. apply orb_false_iff in H as [Hc Hs].
  rewrite Hc, (IH Hs). reflexivity.
Qed.

(** The first segment ends at the first separator. *)
Lemma split_at_sep (sep : ascii) (a rest : string) :
  has_char sep a = false ->
  split sep (a +:+ String sep rest) = a :: split sep rest.
Proof.
  induction a as [|c a IH].
  - intros _. simpl. now rewrite Ascii.eqb_refl.
  - rewrite append_cons. simpl. intros H. apply orb_false_iff in H as [Hc Ha].
    rewrite Hc, (IH Ha). reflexivity.
Qed.

(** Every string is a separator-free segment, alone or followed by a
    separator and the rest. *)
Lemma split_first (sep : ascii) (s : string) :
  exists a, has_char sep a = false /\
    ((s = a /\ split sep s = [a]) \/
     (exists rest, s = a +:+ String sep rest /\ split sep s = a :: split sep rest)).
Proof.
  induction s as [|c s IH].
  - exists EmptyString. split; [reflexivity | left; split; reflexivity].
  - destruct (Ascii.eqb c sep) eqn:Hc.
    + apply Ascii.eqb_eq in Hc. subst c.
      exists EmptyString. split; [reflexivity |]. right. exists s.
      split; [reflexivity |]. simpl. now rewrite Ascii.eqb_refl.
    + destruct IH as (a & Ha & [[-> Hs] | (rest & -> & Hs)]).
      * exists (String c a). split; [simpl; now rewrite Hc, Ha |].
        left. split; [reflexivity |]. simpl. now rewrite Hc, Hs.
      * exists (String c a). split; [simpl; now rewrite Hc, Ha |].
        right. exists rest. split; [reflexivity |]. simpl. now rewrite Hc, Hs.
Qed.

Lemma count_char_append (c : ascii) (a b : string) :
  count_char c (a +:+ b) = count_char c a + count_char c b.
Proof.
  induction a as [|x a IH]; [reflexivity |].
  rewrite append_cons. simpl. rewrite IH. lia.
Qed.

Lemma count_char_absent (c : ascii) (s : string) :
  has_char c s = false -> count_char c s = 0.
Proof.
  induction s as [|x s IH]; simpl; [reflexivity |].
  intros H. apply orb_false_iff in H as [Hx Hs]. rewrite Hx, (IH Hs). reflexivity.
Qed.

End StringFacts.

(** ** Identities *)

Section IdentityFacts.
Import JS Identity.

Lemma split_two (sep : ascii) (a d s : string) :
  (exists rest, split sep s = a :: d :: rest) <->
  has_char sep a = false /\ has_char sep d = false /\
  (s = a +:+ String sep d \/ exists tl, s = a +:+ String sep (d +:+ String sep tl)).
Proof.
  split.
  - intros [rest Hs].
    destruct (split_first sep s) as (a0 & Ha0 & [[-> Hone] | (s1 & -> & Hcons)]).
    { rewrite Hone in Hs. discriminate. }
    rewrite Hcons in Hs. injection Hs as -> Hs1.
    destruct (split_first sep s1) as (d0 & Hd0 & [[-> Hone] | (s2 & -> & Hcons2)]).
    + rewrite Hone in Hs1. injection Hs1 as -> _. auto.
    + rewrite Hcons2 in Hs1. injection Hs1 as -> _.
      split; [assumption |]. split; [assumption |]. right. now exists s2.
  - intros (Ha & Hd & [-> | [tl ->]]).
    + exists []. now rewrite (split_at_sep _ _ _ Ha), (split_without_sep _ _ Hd).
    + exists (split sep tl).
      now rewrite (split_at_sep _ _ _ Ha), (split_at_sep _ _ _ Hd).
Qed.

Lemma parseIdentity_split (s a d : string) :
  parseIdentity s = Some (mkParsedIdentity a d) <->
  a <> EmptyString /\ d <> EmptyString /\ exists rest, split "$" s = a :: d :: rest.
Proof.
  unfold parseIdentity.
  destruct (split "$" s) as [|x [|y rest]] eqn:Hs; simpl.
  - now destruct (split_not_nil "$" s).
  - rewrite orb_true_r. split; [discriminate | intros (_ & _ & [r Hr]); discriminate].
  - destruct (is_empty x) eqn:Hx, (is_empty y) eqn:Hy; simpl.
    + apply is_empty_true in Hx. split; [discriminate |].
      intros (Ha & _ & [r Hr]). congruence.
    + apply is_empty_true in Hx. split; [discriminate |].
      intros (Ha & _ & [r Hr]). congruence.
    + apply is_empty_true in Hy. split; [discriminate |].
      intros (_ & Hd & [r Hr]). congruence.
    + apply is_empty_false in Hx, Hy. split.
      * intros [= -> ->]. eauto.
      * intros (_ & _ & [r [= -> -> _]]). reflexivity.
Qed.

Lemma parseIdentity_firstTwoSegments (s a d : string) :
  parseIdentity s = Some (mkParsedIdentity a d) <-> firstTwoSegments a d s.
Proof.
  rewrite parseIdentity_split. unfold firstTwoSegments.
  rewrite (split_two "$" a d s). tauto.
Qed.

(** For a string [a$d] with one [$] and non-empty halves the parse gives
    back the halves. *)
Lemma parseIdentity_roundtrip (a d : string) :
  a <> EmptyString -> d <> EmptyString ->
  has_char "$" a = false -> has_char "$" d = false ->
  parseIdentity (a +:+ "$" +:+ d) = Some (mkParsedIdentity a d).
Proof.
  intros. apply parseIdentity_firstTwoSegments. unfold firstTwoSegments. auto 10.
Qed.

(** C4, as stated, fails: [a$b$c] does not split on a single [$] into two
    halves, yet [parseIdentity] returns an identity for it, and the parsed
    halves recompose to [a$b], not to the input. *)
Lemma parseIdentity_ignores_third_segment :
  parseIdentity "a$b$c" = Some (mkParsedIdentity "a" "b") /\
  count_char "$" "a$b$c" = 2 /\
  identityString (mkParsedIdentity "a" "b") <> "a$b$c".
Proof. repeat split. discriminate. Qed.

(** C4 (amended): [parseIdentity] returns the identity [(a, d)] exactly for
    the strings whose first two [$]-separated segments are the non-empty [a]
    and [d] (further segments are ignored), and none for every other string;
    the parsed halves recompose to the input exactly when it holds a single
    [$]. *)
Theorem parseIdentity_first_two_segments (s : string) :
  (forall a d, parseIdentity s = Some (mkParsedIdentity a d) <-> firstTwoSegments a d s) /\
  (parseIdentity s = None <-> forall a d, ~ firstTwoSegments a d s) /\
  (forall p, parseIdentity s = Some p /\ identityString p = s <->
             parseIdentity s = Some p /\ count_char "$" s = 1).
Proof.
  split; [intros a d; apply parseIdentity_firstTwoSegments |]. split.
  - split.
    + intros Hn a d H. apply parseIdentity_firstTwoSegments in H. congruence.
    + intros H. destruct (parseIdentity s) as [[a d]|] eqn:Hp; [| reflexivity].
      apply parseIdentity_firstTwoSegments in Hp. now destruct (H a d).
  - intros [a d]. unfold identityString. simpl.
    split; intros [Hp Hs]; (split; [assumption |]);
      apply parseIdentity_firstTwoSegments in Hp as (_ & _ & Ha & Hd & Hform).
    + rewrite <- Hs, count_char_append.
      change ("$" +:+ d) with (String "$" d). simpl.
      rewrite (count_char_absent _ _ Ha), (count_char_absent _ _ Hd). reflexivity.
    + destruct Hform as [-> | [tl ->]]; [reflexivity |]. exfalso.
      change ("$" +:+ d +:+ "$" +:+ tl) with (String "$" (d +:+ String "$" tl)) in Hs.
      rewrite count_char_append in Hs. simpl in Hs.
      rewrite count_char_append in Hs. simpl in Hs. lia.
Qed.

(** *** Host and selector *)





(** *** Public keys *)

Lemma length_split (sep : ascii) (s : string) :
  length (split sep s) = S (count_char sep s).
Proof.
  induction s as [|c s IH]; simpl; [reflexivity |].
  destruct (Ascii.eqb c sep); simpl; [now rewrite IH |].
  destruct (split sep s) as [|seg segs] eqn:Hs; [now destruct (split_not_nil sep s) |].
  simpl in *. lia.
Qed.

Lemma count_char_present (c : ascii) (s : string) :
  has_char c s = true -> 1 <= count_char c s.
Proof.
  induction s as [|x s IH]; simpl; [discriminate |].
  destruct (Ascii.eqb x c); simpl; [lia | auto].
Qed.

(** A pair [k=b] whose value holds an equals sign (base64 padding) splits
    into more than two parts, so the filter on [pair.length === 2] drops
    it. *)
Lemma padded_pair_is_dropped (k b : string) :
  has_char "=" b = true ->
  length (map trim (split "=" (k +:+ String "=" b))) <> 2.
Proof.
  intros Hb. rewrite length_map, length_split, count_char_append. simpl.
  apply count_char_present in Hb. lia.
Qed.

(** C3 at a key whose base64 text is padded: the [p] pair is dropped, and
    the call rejects with the DNS error instead of returning the PEM. *)
Theorem getDnsIdentityParts_padded_key_rejects :
  getDnsIdentityParts exampleZone "alice$example.com" "btps1" (Some pem) =
  Throw "DNS resolution failed for example.com: {}".
Proof. reflexivity. Qed.

(** The same record with an unpadded key resolves to the PEM text. *)
Lemma getDnsIdentityParts_unpadded_key :
  getDnsIdentityParts exampleZone "bob$example.com" "btps1" (Some pem) =
  Return (Some (OnePart (Some
    ("-----BEGIN PUBLIC KEY-----" +:+ LF +:+ "QUJDREVG" +:+ LF +:+
     "-----END PUBLIC KEY-----")))).
Proof. reflexivity. Qed.

(** *** Published records *)

Lemma has_char_append (c : ascii) (a b : string) :
  has_char c (a +:+ b) = has_char c a || has_char c b.
Proof.
  induction a as [|x a IH]; [reflexivity |].
  rewrite append_cons. simpl. rewrite IH. now rewrite orb_assoc.
Qed.

Lemma plain_cons (c : ascii) (s : string) :
  plain (String c s) = true ->
  is_space c = false /\ Ascii.eqb c ";" = false /\ Ascii.eqb c "=" = false /\
  plain s = true.
Proof.
  simpl. rewrite !andb_true_iff, !negb_true_iff. tauto.
Qed.

Lemma trimEnd_plain (s : string) : plain s = true -> trimEnd s = s.
Proof.
  induction s as [|c s IH]; [reflexivity |].
  intros (Hsp & _ & _ & Hs)%plain_cons. simpl. rewrite Hsp, (IH Hs). reflexivity.
Qed.

Lemma trim_plain (s : string) : plain s = true -> trim s = s.
Proof.
  intros H. unfold trim.
  assert (Hstart : trimStart s = s).
  { destruct s as [|c s]; [reflexivity |].
    apply plain_cons in H as (Hsp & _). simpl. now rewrite Hsp. }
  rewrite Hstart. now apply trimEnd_plain.
Qed.

Lemma plain_no_semicolon (s : string) : plain s = true -> has_char ";" s = false.
Proof.
  induction s as [|x s IH]; [reflexivity |].
  intros (_ & Hsemi & _ & Hs)%plain_cons. simpl. now rewrite Hsemi, (IH Hs).
Qed.

Lemma plain_no_equals (s : string) : plain s = true -> has_char "=" s = false.
Proof.
  induction s as [|x s IH]; [reflexivity |].
  intros (_ & _ & Heq & Hs)%plain_cons. simpl. now rewrite Heq, (IH Hs).
Qed.

(** A segment [ k=x] of the record, with its leading blank, is the pair of
    [k] and [x]. *)
Lemma pair_of_segment (k : ascii) (x : string) :
  is_space k = false -> Ascii.eqb k "=" = false -> plain x = true ->
  map trim (split "=" (trim (String " " (String k (String "=" x)))))
  = [String k EmptyString; x].
Proof.
  intros Hk Hkeq Hx.
  assert (Htrim : trim (String " " (String k (String "=" x))) = String k (String "=" x)).
  { unfold trim. change (trimStart (String " " (String k (String "=" x))))
      with (trimStart (String k (String "=" x))).
    simpl trimStart. rewrite Hk. simpl. rewrite Hk, (trimEnd_plain x Hx). reflexivity. }
  rewrite Htrim.
  change (String k (String "=" x)) with (String k EmptyString +:+ String "=" x).
  rewrite split_at_sep by (simpl; now rewrite Hkeq).
  rewrite (split_without_sep "=" x) by now apply plain_no_equals.
  cbn [map]. rewrite (trim_plain x Hx).
  assert (Hkey : trim (String k EmptyString) = String k EmptyString).
  { unfold trim. simpl. rewrite Hk. simpl. now rewrite Hk. }
  now rewrite Hkey.
Qed.

(** The parts of a record published in the documented form. *)
Lemma txtParts_hostRecord (u s : string) :
  plain u = true -> plain s = true ->
  txtParts [[hostRecord u s]]
  = <["s" := s]> (<["u" := u]> (<["v" := BTP_PROTOCOL_VERSION]> ∅)).
Proof.
  intros Hu Hs. unfold txtParts, flatten. simpl join.
  unfold hostRecord, txtPairs.
  change ("v=1.0.0; u=" +:+ u +:+ "; s=" +:+ s)
    with ("v=1.0.0" +:+ String ";" ((" u=" +:+ u) +:+ String ";" (" s=" +:+ s))).
  rewrite split_at_sep by reflexivity.
  rewrite split_at_sep
    by (rewrite has_char_append; simpl; now rewrite plain_no_semicolon).
  rewrite split_without_sep
    by (rewrite has_char_append; simpl; now rewrite plain_no_semicolon).
  cbn [map].
  change (" u=" +:+ u) with (String " " (String "u" (String "=" u))).
  change (" s=" +:+ s) with (String " " (String "s" (String "=" s))).
  rewrite !pair_of_segment by (reflexivity || assumption).
  reflexivity.
Qed.

(** For every identity whose domain publishes the documented record with a
    non-empty host and selector, the host and the selector are returned. *)
Lemma getHostAndSelector_hostRecord (resolveTxt : Resolver) (identity : string)
    (p : ParsedIdentity) (u s : string) :
  parseIdentity identity = Some p ->
  resolveTxt (BTPS_NAME_SPACE +:+ "." +:+ domainName p) = TxtRecords [[hostRecord u s]] ->
  plain u = true -> plain s = true -> u <> EmptyString -> s <> EmptyString ->
  getHostAndSelector resolveTxt identity = Return (Some (mkHostAndSelector u s)).
Proof.
  intros Hp Hr Hu Hs Hune Hsne. unfold getHostAndSelector. rewrite Hp, Hr.
  change (bool_decide (length [[hostRecord u s]] = 0)) with false. cbv iota.
  rewrite (txtParts_hostRecord u s Hu Hs). simplify_map_eq.
  destruct u; [congruence |]. destruct s; [congruence |]. reflexivity.
Qed.

(** The parts of a key record published in the documented form. *)
Lemma txtParts_keyRecord (keyType base64 : string) :
  plain keyType = true -> plain base64 = true ->
  txtParts [[keyRecord keyType base64]]
  = <["p" := base64]> (<["k" := keyType]> (<["v" := BTP_PROTOCOL_VERSION]> ∅)).
Proof.
  intros Hk Hb. unfold txtParts, flatten. simpl join.
  unfold keyRecord, txtPairs.
  change ("v=1.0.0; k=" +:+ keyType +:+ "; p=" +:+ base64)
    with ("v=1.0.0" +:+ String ";" ((" k=" +:+ keyType) +:+ String ";" (" p=" +:+ base64))).
  rewrite split_at_sep by reflexivity.
  rewrite split_at_sep
    by (rewrite has_char_append; simpl; now rewrite plain_no_semicolon).
  rewrite split_without_sep
    by (rewrite has_char_append; simpl; now rewrite plain_no_semicolon).
  cbn [map].
  change (" k=" +:+ keyType) with (String " " (String "k" (String "=" keyType))).
  change (" p=" +:+ base64) with (String " " (String "p" (String "=" base64))).
  rewrite !pair_of_segment by (reflexivity || assumption).
  reflexivity.
Qed.

(** For a key published without padding (no equals sign in the base64
    text), the [pem] part is the PEM form of the published text. *)
Lemma getDnsIdentityParts_keyRecord (resolveTxt : Resolver)
    (identity selector keyType base64 : string) (p : ParsedIdentity) :
  parseIdentity identity = Some p ->
  resolveTxt (selector +:+ "." +:+ BTPS_NAME_SPACE +:+ "." +:+ accountName p +:+ "." +:+
              domainName p) = TxtRecords [[keyRecord keyType base64]] ->
  plain keyType = true -> plain base64 = true ->
  getDnsIdentityParts resolveTxt identity selector (Some pem)
  = Return (Some (OnePart (Some (base64ToPem base64)))).
Proof.
  intros Hp Hr Hk Hb. unfold getDnsIdentityParts. rewrite Hp. destruct p as [a d].
  simpl in Hr. rewrite Hr.
  change (bool_decide (length [[keyRecord keyType base64]] = 0)) with false. cbv iota.
  rewrite (txtParts_keyRecord keyType base64 Hk Hb).
  unfold pemOfParts. now simplify_map_eq.
Qed.

End IdentityFacts.

(** ** The server response schema *)

Section SchemaFacts.
Import JS Schema.

Lemma merge_status_valid (a b : ParseStatus) :
  merge_status a b = valid -> a = valid /\ b = valid.
Proof. destruct a, b; simpl; intros H; try discriminate; auto. Qed.

Lemma merge_status_aborted_l (b : ParseStatus) : merge_status aborted b = aborted.
Proof. reflexivity. Qed.

Lemma merge_status_aborted_r (a : ParseStatus) : merge_status a aborted = aborted.
Proof. now destruct a. Qed.

Lemma merge_valid (rs : list ParseReturn) (r : ParseReturn) :
  status (merge rs) = valid -> In r rs -> status r = valid.
Proof.
  unfold merge. simpl. induction rs as [|r0 rs IH]; simpl; [tauto |].
  intros H%merge_status_valid [<- | Hin]; [apply H | apply IH; [apply H | exact Hin]].
Qed.

Lemma merge_not_aborted (rs : list ParseReturn) (r : ParseReturn) :
  status (merge rs) <> aborted -> In r rs -> status r <> aborted.
Proof.
  unfold merge. simpl. induction rs as [|r0 rs IH]; simpl; [tauto |].
  intros H [<- | Hin] Hr.
  - apply H. rewrite Hr. apply merge_status_aborted_l.
  - apply (IH); [| exact Hin | exact Hr].
    intros Hrs. apply H. rewrite Hrs. apply merge_status_aborted_r.
Qed.

Lemma merge_issues (rs : list ParseReturn) (r : ParseReturn) (i : ZodIssue) :
  In r rs -> In i (issues r) -> In i (issues (merge rs)).
Proof.
  intros Hr Hi. unfold merge. simpl. apply in_concat.
  exists (issues r). split; [now apply in_map | exact Hi].
Qed.

Lemma z_object_fields (shape : list (string * ZodSchema)) at_ props :
  z_object shape at_ (JObj props) = merge (map (fieldParse at_ props) shape).
Proof. reflexivity. Qed.

Lemma z_object_valid shape at_ props k schema :
  status (z_object shape at_ (JObj props)) = valid ->
  In (k, schema) shape ->
  status (schema (at_ ++ [k]) (prop props k)) = valid.
Proof.
  rewrite z_object_fields. intros H Hin.
  apply (merge_valid _ (fieldParse at_ props (k, schema)) H).
  now apply in_map.
Qed.

Lemma z_object_not_aborted shape at_ props k schema :
  status (z_object shape at_ (JObj props)) <> aborted ->
  In (k, schema) shape ->
  status (schema (at_ ++ [k]) (prop props k)) <> aborted.
Proof.
  rewrite z_object_fields. intros H Hin.
  apply (merge_not_aborted _ (fieldParse at_ props (k, schema)) H).
  now apply in_map.
Qed.

Lemma z_object_issues shape at_ props k schema i :
  In (k, schema) shape ->
  In i (issues (schema (at_ ++ [k]) (prop props k))) ->
  In i (issues (z_object shape at_ (JObj props))).
Proof.
  rewrite z_object_fields. intros Hin Hi.
  apply (merge_issues _ (fieldParse at_ props (k, schema))); [now apply in_map | exact Hi].
Qed.

(** A refined schema is valid only if the inner schema is and the
    refinement adds nothing; it keeps the issues of the inner schema, and
    adds those of the refinement unless the inner parse aborted. *)
Lemma z_superRefine_valid inner refinement at_ v :
  status (z_superRefine inner refinement at_ v) = valid ->
  status (inner at_ v) = valid /\ refinement v = [].
Proof.
  unfold z_superRefine.
  destruct (status (inner at_ v)) eqn:Hs; simpl.
  - destruct (refinement v); simpl; [auto | discriminate].
  - destruct (refinement v); simpl; discriminate.
  - rewrite Hs. discriminate.
Qed.

Lemma z_superRefine_inner_issues inner refinement at_ v i :
  In i (issues (inner at_ v)) ->
  In i (issues (z_superRefine inner refinement at_ v)).
Proof.
  unfold z_superRefine. intros Hi.
  destruct (status (inner at_ v)); simpl; try (apply in_or_app; left); exact Hi.
Qed.

Lemma z_superRefine_added_issues inner refinement v i :
  status (inner [] v) <> aborted ->
  In i (refinement v) ->
  In i (issues (z_superRefine inner refinement [] v)) /\
  status (z_superRefine inner refinement [] v) <> valid.
Proof.
  unfold z_superRefine. intros Hs Hi.
  assert (Hadd : In i (map (fun i => mkIssue ([] ++ path i) (code i) (message i))
                           (refinement v))).
  { apply in_map_iff. exists i. split; [now destruct i | exact Hi]. }
  destruct (status (inner [] v)) eqn:E; [| | congruence]; simpl;
    (split; [apply in_or_app; now right |]);
    destruct (refinement v); simpl in *; [tauto | discriminate | tauto | discriminate].
Qed.

Lemma safeParse_success schema v :
  safeParse schema v = success <-> status (schema [] v) = valid.
Proof.
  unfold safeParse. destruct (status (schema [] v)); split; congruence.
Qed.

Lemma safeParse_names schema v i field :
  status (schema [] v) <> valid ->
  In i (issues (schema [] v)) -> path i = [field] ->
  names (safeParse schema v) field.
Proof.
  intros Hs Hi Hp. exists (issues (schema [] v)), i.
  unfold safeParse. destruct (status (schema [] v)); [congruence | auto | auto].
Qed.

(** A value the signature or the encryption schema does not abort on is an
    object, hence truthy. *)
Lemma z_object_truthy shape at_ v :
  status (z_optional (z_object shape) at_ v) <> aborted ->
  v <> JUndefined -> truthy v = true.
Proof. destruct v; simpl; intros H1 H2; try reflexivity; congruence. Qed.

Lemma truthy_present (c : list (string * jsval)) k :
  truthy (prop c k) = true -> present c k.
Proof. unfold present. destruct (prop c k); simpl; congruence. Qed.

Lemma absent_falsy (c : list (string * jsval)) k :
  ~ present c k -> truthy (prop c k) = false.
Proof.
  unfold present. intros H. destruct (prop c k); simpl; try reflexivity;
    exfalso; apply H; discriminate.
Qed.

Ltac in_shape := simpl; repeat (first [left; reflexivity | right]).

Section ServerResponseFacts.

Variable identitySchema : ZodSchema.
Variable BtpServerResDocsSchema : ZodSchema.
Variable datetime : string -> bool.

Lemma signature_truthy (c : list (string * jsval)) :
  status (z_object (BtpServerResponseShape identitySchema BtpServerResDocsSchema datetime) [] (JObj c)) <> aborted ->
  present c "signature" -> truthy (prop c "signature") = true.
Proof.
  intros Hobj Hsig.
  apply (z_object_truthy _ ([] ++ ["signature"]) _
           (z_object_not_aborted _ [] c "signature" (z_optional BtpSignatureSchema)
              Hobj ltac:(in_shape)) Hsig).
Qed.

Lemma encryption_truthy (c : list (string * jsval)) :
  status (z_object (BtpServerResponseShape identitySchema BtpServerResDocsSchema datetime) [] (JObj c)) <> aborted ->
  present c "encryption" -> truthy (prop c "encryption") = true.
Proof.
  intros Hobj Henc.
  apply (z_object_truthy _ ([] ++ ["encryption"]) _
           (z_object_not_aborted _ [] c "encryption" (z_optional BtpEncryptionSchema)
              Hobj ltac:(in_shape)) Henc).
Qed.

(** An accepted envelope satisfies the three invariants. *)
Lemma accepted_invariants (c : list (string * jsval)) :
  safeParse (BtpServerResponseSchema identitySchema BtpServerResDocsSchema datetime) (JObj c) = success ->
  encryptionInvariant c /\ signatureInvariant c /\ versionInvariant c.
Proof.
  intros [Hobj Href]%safeParse_success%z_superRefine_valid.
  assert (Hlive : status (z_object (BtpServerResponseShape identitySchema BtpServerResDocsSchema datetime) [] (JObj c)) <> aborted) by (rewrite Hobj; discriminate).
  simpl in Href. split; [| split].
  - intros Henc. rewrite (encryption_truthy c Hlive Henc) in Href.
    destruct (is_string (prop c "document")); [reflexivity |].
    simpl in Href. now destruct (app_eq_nil _ _ Href) as [_ ?].
  - intros Hsig. rewrite (signature_truthy c Hlive Hsig) in Href.
    apply app_eq_nil in Href as [[H1 H2]%app_eq_nil _].
    split; apply truthy_present.
    + destruct (truthy (prop c "signedBy")); [reflexivity | discriminate].
    + destruct (truthy (prop c "selector")); [reflexivity | discriminate].
  - pose proof (z_object_valid (BtpServerResponseShape identitySchema BtpServerResDocsSchema datetime) [] c "version" _ Hobj ltac:(in_shape)) as Hv.
    simpl in Hv. unfold z_string_check in Hv. unfold versionInvariant.
    destruct (prop c "version") as [| | | |v| |]; try discriminate.
    exists v. split; [reflexivity |]. destruct (semver v); [reflexivity | discriminate].
Qed.

(** A version that does not match the pattern is always named. *)
Lemma version_named (c : list (string * jsval)) :
  ~ versionInvariant c -> names (safeParse (BtpServerResponseSchema identitySchema BtpServerResDocsSchema datetime) (JObj c)) "version".
Proof.
  intros Hver.
  set (r := z_string_check semver
              (Some "Version must be in semantic versioning format (e.g., 1.0.0)")
              ([] ++ ["version"]) (prop c "version")).
  assert (Hr : status r <> valid /\ exists i, In i (issues r) /\ path i = ["version"]).
  { subst r. unfold z_string_check. destruct (prop c "version") as [| | | |v| |] eqn:E;
      try (split; [discriminate | eexists; split; [left; reflexivity | reflexivity]]).
    destruct (semver v) eqn:Hv.
    - exfalso. apply Hver. now exists v.
    - split; [discriminate | eexists; split; [left; reflexivity | reflexivity]]. }
  destruct Hr as [Hbad (i & Hi & Hp)].
  apply (safeParse_names _ _ i); [| | exact Hp].
  - intros [Hobj _]%z_superRefine_valid. apply Hbad.
    apply (z_object_valid (BtpServerResponseShape identitySchema BtpServerResDocsSchema datetime) [] c "version" _ Hobj). in_shape.
  - apply z_superRefine_inner_issues.
    apply (z_object_issues (BtpServerResponseShape identitySchema BtpServerResDocsSchema datetime) [] c "version" _ i ltac:(in_shape) Hi).
Qed.

(** When no field aborts its own parse, the refinement runs and names the
    field of the violated cross-field invariant. *)
Lemma cross_field_named (c : list (string * jsval)) :
  status (z_object (BtpServerResponseShape identitySchema BtpServerResDocsSchema datetime) [] (JObj c)) <> aborted ->
  (present c "signature" -> ~ present c "signedBy" ->
   names (safeParse (BtpServerResponseSchema identitySchema BtpServerResDocsSchema datetime) (JObj c)) "signedBy") /\
  (present c "signature" -> ~ present c "selector" ->
   names (safeParse (BtpServerResponseSchema identitySchema BtpServerResDocsSchema datetime) (JObj c)) "selector") /\
  (present c "encryption" -> is_string (prop c "document") = false ->
   names (safeParse (BtpServerResponseSchema identitySchema BtpServerResDocsSchema datetime) (JObj c)) "document").
Proof.
  intros Hlive.
  assert (Hnamed : forall i field,
             In i (serverResponseRefinement (JObj c)) -> path i = [field] ->
             names (safeParse (BtpServerResponseSchema identitySchema BtpServerResDocsSchema datetime) (JObj c)) field).
  { intros i field Hi Hp.
    destruct (z_superRefine_added_issues (z_object (BtpServerResponseShape identitySchema BtpServerResDocsSchema datetime)) serverResponseRefinement
                (JObj c) i Hlive Hi) as [Hin Hbad].
    now apply (safeParse_names _ _ i). }
  split; [| split].
  - intros Hsig Hno.
    apply (Hnamed (mkIssue ["signedBy"] custom
                     (Some "signedBy is required when signature is present")));
      [| reflexivity].
    simpl. rewrite (signature_truthy c Hlive Hsig), (absent_falsy c _ Hno). simpl. now left.
  - intros Hsig Hno.
    apply (Hnamed (mkIssue ["selector"] custom
                     (Some "selector is required when signature is present")));
      [| reflexivity].
    simpl. rewrite (signature_truthy c Hlive Hsig), (absent_falsy c _ Hno). simpl.
    apply in_or_app. left. apply in_or_app. right. now left.
  - intros Henc Hdoc.
    apply (Hnamed (mkIssue ["document"] custom
                     (Some "When encrypted, document must be a string")));
      [| reflexivity].
    simpl. rewrite (encryption_truthy c Hlive Henc), Hdoc. simpl.
    apply in_or_app. right. now left.
Qed.

End ServerResponseFacts.

Lemma signedResponse_accepted :
  safeParse (BtpServerResponseSchema z_string z_string anyDatetime) (JObj signedResponse)
  = success.
Proof. reflexivity. Qed.

Lemma unsignedByResponse_rejected :
  safeParse (BtpServerResponseSchema z_string z_string anyDatetime) (JObj unsignedByResponse)
  = error [mkIssue ["signedBy"] custom
                   (Some "signedBy is required when signature is present");
           mkIssue ["selector"] custom
                   (Some "selector is required when signature is present")].
Proof. reflexivity. Qed.

(** C6, as stated, fails in its last sentence: this response violates the
    signature invariant, and the validation error names [id] only, not
    [signedBy] or [selector] (zod does not run the refinement once the
    parse of a field has aborted). *)
Lemma illTypedResponse_error_does_not_name_signedBy :
  ~ signatureInvariant illTypedResponse /\
  safeParse (BtpServerResponseSchema z_string z_string anyDatetime) (JObj illTypedResponse)
  = error [mkIssue ["id"] invalid_type None] /\
  ~ names (safeParse (BtpServerResponseSchema z_string z_string anyDatetime)
                     (JObj illTypedResponse)) "signedBy".
Proof.
  split; [| split].
  - intros H. destruct H as [H _]; [discriminate |]. now apply H.
  - reflexivity.
  - intros (zodError & issue & Herr & Hin & Hpath).
    injection Herr as <-. destruct Hin as [<- | []]. discriminate.
Qed.

(** C6 (amended): validation accepts a candidate only if the three
    invariants hold; a version that does not match the pattern is always
    named by the error; the field of a violated cross-field invariant
    ([signedBy], [selector], [document]) is named whenever no field of the
    candidate aborts its own parse. *)
Theorem BtpServerResponseSchema_invariants
    (identitySchema BtpServerResDocsSchema : ZodSchema) (datetime : string -> bool)
    (c : list (string * jsval)) :
  (safeParse (BtpServerResponseSchema identitySchema BtpServerResDocsSchema datetime) (JObj c)
   = success ->
   encryptionInvariant c /\ signatureInvariant c /\ versionInvariant c) /\
  (~ versionInvariant c ->
   names (safeParse (BtpServerResponseSchema identitySchema BtpServerResDocsSchema datetime)
                    (JObj c)) "version") /\
  (status (z_object (BtpServerResponseShape identitySchema BtpServerResDocsSchema datetime)
                    [] (JObj c)) <> aborted ->
   (present c "signature" -> ~ present c "signedBy" ->
    names (safeParse (BtpServerResponseSchema identitySchema BtpServerResDocsSchema datetime)
                     (JObj c)) "signedBy") /\
   (present c "signature" -> ~ present c "selector" ->
    names (safeParse (BtpServerResponseSchema identitySchema BtpServerResDocsSchema datetime)
                     (JObj c)) "selector") /\
   (present c "encryption" -> is_string (prop c "document") = false ->
    names (safeParse (BtpServerResponseSchema identitySchema BtpServerResDocsSchema datetime)
                     (JObj c)) "document")).
Proof.
  split; [apply accepted_invariants |]. split; [apply version_named |].
  apply cross_field_named.
Qed.

End SchemaFacts.

(** ** The trust store *)

Section TrustStoreFacts.
Import JS TrustStore.
Local Open Scope store_scope.

(** *** The record map *)




(** *** Sequencing *)



(** *** update *)



(** [update] of an id the store does not have rejects, and changes nothing
    beyond what the lookup did. *)
Lemma update_not_found computedId patch st s1 :
  getById computedId st = (Resolved None, s1) ->
  update computedId patch st
  = (Rejected (NotFound (patch_senderId patch) (patch_receiverId patch)), s1).
Proof. intros H. unfold update, bind. rewrite H. reflexivity. Qed.

(** *** create *)



(** *** Loading and flushing *)

Ltac run_store :=
  unfold reloadIfChanged, flushAndReload, ensureLoaded, init, writeToFile, JSON_parse,
    bind, this, assign, io, ret, throw, try_finally,
    existsSync, fs_writeFile, fs_readFile, fs_rename, fs_stat, lock, release in *;
  simpl in *.


Lemma writeToFile_clean s w : dirty s = false -> writeToFile (s, w) = (Resolved tt, (s, w)).
Proof. intros H. unfold writeToFile, bind, this. simpl. now rewrite H. Qed.

Lemma writeToFile_store s w r s' w' :
  writeToFile (s, w) = (r, (s', w')) ->
  dirty s' = false /\ recordMap s' = recordMap s /\ sameConfig s s' /\
  exists more, calls w' = calls w ++ more.
Proof.
  unfold sameConfig. run_store. intros H.
  destruct (dirty s) eqn:Hd; simpl in *.
  - repeat case_match; simplify_eq; simpl in *.
    all: split_and!; try reflexivity.
    all: eexists; rewrite <- ?app_assoc; reflexivity.
  - simplify_eq. split_and!; auto. exists []. now rewrite app_nil_r.
Qed.





(** *** Reads *)



(** *** A flush that fails *)

(** C2, as stated, fails: the write of the flush is refused, the flush
    rejects, and the dirty flag is left cleared; the next flush returns at
    once without touching the disk. *)
Lemma failed_flush_leaves_dirty_cleared :
  fst (writeToFile (dirtyStore, worldC)) = Rejected (EIO (WriteFile "trust.json.tmp")) /\
  dirty (fst (snd (writeToFile (dirtyStore, worldC)))) = false /\
  flushNow (snd (writeToFile (dirtyStore, worldC)))
  = (Resolved tt, snd (writeToFile (dirtyStore, worldC))).
Proof. repeat split. Qed.

Lemma refused_write_rejects s w :
  dirty s = true ->
  failing w (WriteFile (filePath s +:+ ".tmp")) = true ->
  exists e st', writeToFile (s, w) = (Rejected e, st').
Proof.
  run_store. intros Hd Hw. rewrite Hd. simpl. rewrite ?Hw.
  repeat case_match; simplify_eq; simpl in *; eauto; congruence.
Qed.

(** C2 (amended): when the store is dirty and the disk refuses the write of
    the flush, the flush rejects; and a flush that rejects leaves the dirty
    flag cleared and the map as it was, so that a later flush returns
    without writing until another change marks the store dirty. *)
Theorem failed_flush_clears_dirty (s : JsonTrustStore) (w : World) :
  dirty s = true ->
  (failing w (WriteFile (filePath s +:+ ".tmp")) = true ->
   exists e st', writeToFile (s, w) = (Rejected e, st')) /\
  (forall e s' w',
      writeToFile (s, w) = (Rejected e, (s', w')) ->
      dirty s' = false /\ recordMap s' = recordMap s /\
      flushNow (s', w') = (Resolved tt, (s', w'))).
Proof.
  intros Hd. split; [now apply refused_write_rejects |].
  intros e s' w' H.
  destruct (writeToFile_store _ _ _ _ _ H) as (Hclean & Hmap & _).
  split; [exact Hclean |]. split; [exact Hmap |].
  now apply writeToFile_clean.
Qed.

Lemma failed_flush_clears_dirty_witness :
  dirty (fst (snd (writeToFile (dirtyStore, worldC)))) = false /\
  recordMap (fst (snd (writeToFile (dirtyStore, worldC)))) = recordMap dirtyStore /\
  flushNow (fst (snd (writeToFile (dirtyStore, worldC))),
            snd (snd (writeToFile (dirtyStore, worldC))))
  = (Resolved tt, (fst (snd (writeToFile (dirtyStore, worldC))),
                   snd (snd (writeToFile (dirtyStore, worldC))))).
Proof.
  destruct (failed_flush_clears_dirty dirtyStore worldC eq_refl) as [_ H].
  apply (H (EIO (WriteFile "trust.json.tmp"))). reflexivity.
Defined.

End TrustStoreFacts.

(** ** The client connector *)

Section ClientFacts.
Import JS Client.

(** *** The retry policy *)


(** The model passes every unit test of [getRetryInfo]. *)
Lemma getRetryInfo_passes_unit_tests : getRetryInfo_tests getRetryInfo = true.
Proof. reflexivity. Qed.


(** *** destroy *)

Lemma step_destroyed (c : BtpsClient) (i : Input) :
  destroyed c = true -> step c i = silent c.
Proof. intros H. unfold step. now rewrite H. Qed.

Lemma run_destroyed (c : BtpsClient) (inputs : list Input) :
  destroyed c = true -> run c inputs = silent c.
Proof.
  intros H. induction inputs as [|i inputs IH]; simpl; [reflexivity |].
  rewrite (step_destroyed c i H). simpl. rewrite IH. reflexivity.
Qed.

Lemma destroyClient_destroyed (c : BtpsClient) : destroyed (destroyClient c) = true.
Proof. unfold destroyClient. destruct (destroyed c) eqn:H; [exact H | reflexivity]. Qed.

(** The life-cycle passes the unit tests of [destroy]. *)
Lemma destroy_passes_unit_tests : destroy_tests = true.
Proof. reflexivity. Qed.

(** C9: after [destroy] the client has no subscriber and no live socket,
    and whatever is called or arrives next delivers no event and throws
    nothing; a second [destroy] and a [connect] leave the client as it
    is. *)
Theorem destroy_is_terminal (c : BtpsClient) :
  destroyed c = false ->
  thrown (step c destroy) = None /\
  subscribers (after (step c destroy)) = [] /\
  backpressureQueue (after (step c destroy)) = [] /\
  socket (after (step c destroy)) <> Connected_ /\
  socket (after (step c destroy)) <> Dialing /\
  (forall inputs,
      delivered (run (after (step c destroy)) inputs) = [] /\
      thrown (run (after (step c destroy)) inputs) = None /\
      after (run (after (step c destroy)) inputs) = after (step c destroy)) /\
  step (after (step c destroy)) destroy = silent (after (step c destroy)) /\
  (forall recipient handlers,
      step (after (step c destroy)) (connect recipient handlers)
      = silent (after (step c destroy))).
Proof.
  intros Hlive.
  assert (Hafter : after (step c destroy) = destroyClient c).
  { unfold step. now rewrite Hlive. }
  rewrite Hafter.
  assert (Hd : destroyed (destroyClient c) = true) by apply destroyClient_destroyed.
  split; [unfold step; now rewrite Hlive |].
  unfold destroyClient at 1 2 3 4. rewrite Hlive. simpl.
  split; [reflexivity |]. split; [reflexivity |].
  split; [destruct (socket c); discriminate |].
  split; [destruct (socket c); discriminate |].
  split; [intros inputs; now rewrite (run_destroyed _ inputs Hd) |].
  split; [now apply step_destroyed |].
  intros recipient handlers. now apply step_destroyed.
Qed.

(** The same inputs reach the subscribers of a client that was not
    destroyed. *)
Lemma liveClient_delivers : length (delivered (run liveClient laterInputs)) = 4.
Proof. reflexivity. Qed.

Lemma destroy_is_terminal_witness :
  delivered (run (after (step liveClient destroy)) laterInputs) = [] /\
  thrown (run (after (step liveClient destroy)) laterInputs) = None /\
  subscribers (after (step liveClient destroy)) = [] /\
  socket (after (step liveClient destroy)) = TornDown.
Proof.
  destruct (destroy_is_terminal liveClient eq_refl) as (_ & Hs & _ & _ & _ & Hrun & _).
  destruct (Hrun laterInputs) as (Hd & Ht & _).
  split; [exact Hd |]. split; [exact Ht |]. split; [exact Hs | reflexivity].
Defined.

End ClientFacts.
(* ===================================================================== *)
(** * Further properties *)
(* ===================================================================== *)

(** ** PEM text *)

Section PemFacts.
Import JS Identity.

Lemma append_assoc (a b c : string) : (a +:+ b) +:+ c = a +:+ (b +:+ c).
Proof.
  induction a as [|x a IH]; [reflexivity |].
  rewrite !append_cons. now f_equal.
Qed.

Lemma append_empty_r (a : string) : a +:+ EmptyString = a.
Proof.
  induction a as [|x a IH]; [reflexivity |].
  rewrite append_cons. now f_equal.
Qed.

Lemma length_append (a b : string) :
  String.length (a +:+ b) = String.length a + String.length b.
Proof.
  induction a as [|x a IH]; [reflexivity |].
  rewrite append_cons. simpl. now f_equal.
Qed.

Lemma one_line_cons (c : ascii) (s : string) :
  one_line (String c s) = true -> is_line_terminator c = false /\ one_line s = true.
Proof. simpl. rewrite andb_true_iff, negb_true_iff. tauto. Qed.

Lemma flush_concat (cur : string) : concat_strings (flush cur) = cur.
Proof. destruct cur; [reflexivity |]. simpl. now rewrite append_empty_r. Qed.

(** A run that fits in the room left is flushed whole. *)
Lemma match_runs_fit (width : nat) (s : string) : forall room cur,
  one_line s = true -> String.length s <= room ->
  match_runs width room cur s = flush (cur +:+ s).
Proof.
  induction s as [|c s IH]; intros room cur Hs Hlen.
  - simpl. now rewrite append_empty_r.
  - apply one_line_cons in Hs as [Hc Hs]. simpl in Hlen. simpl. rewrite Hc.
    destruct room as [|room]; [lia |].
    rewrite (IH room) by (assumption || lia).
    now rewrite append_assoc.
Qed.

(** A run longer than the room left fills the line, and the rest starts a
    new one. *)
Lemma match_runs_over (width : nat) (s : string) : forall room cur,
  one_line s = true -> 1 <= width -> String.length cur + room = width ->
  room < String.length s ->
  match_runs width room cur s
  = (cur +:+ take_chars room s) :: match_runs width width EmptyString (drop_chars room s).
Proof.
  induction s as [|c s IH]; intros room cur Hs Hw Hinv Hlen; [simpl in Hlen; lia |].
  pose proof Hs as Hcs. apply one_line_cons in Hs as [Hc Hs]. simpl in Hlen.
  destruct room as [|room].
  - simpl take_chars. simpl drop_chars. rewrite append_empty_r.
    change (match_runs width 0 cur (String c s))
      with (if is_line_terminator c
            then flush cur ++ match_runs width width EmptyString s
            else flush cur ++ match_runs width (pred width) (String c EmptyString) s).
    rewrite Hc.
    assert (Hflush : flush cur = [cur]).
    { destruct cur; [simpl in Hinv; lia | reflexivity]. }
    rewrite Hflush. simpl app. f_equal.
    destruct width as [|w]; [lia |]. simpl. now rewrite Hc.
  - simpl. rewrite Hc. rewrite (IH room) by (try assumption; try lia;
      rewrite length_append; simpl; lia).
    now rewrite append_assoc.
Qed.

Lemma match_runs_concat (width : nat) (s : string) : forall room cur,
  one_line s = true ->
  concat_strings (match_runs width room cur s) = cur +:+ s.
Proof.
  induction s as [|c s IH]; intros room cur Hs.
  - simpl. now rewrite flush_concat, append_empty_r.
  - apply one_line_cons in Hs as [Hc Hs]. simpl. rewrite Hc.
    destruct room as [|room].
    + unfold concat_strings. rewrite foldr_app. fold (concat_strings (match_runs width (pred width) (String c EmptyString) s)).
      rewrite (IH _ _ Hs).
      destruct cur; simpl; [reflexivity |]. reflexivity.
    + rewrite (IH _ _ Hs). now rewrite append_assoc.
Qed.


(** The lines of a PEM body with a line feed after each. *)
Lemma join_lines (lines : list string) (last : string) :
  join LF (lines ++ [last])
  = foldr (fun l acc => l +:+ LF +:+ acc) last lines.
Proof.
  induction lines as [|l lines IH]; [reflexivity |].
  change (join LF ((l :: lines) ++ [last]))
    with (match lines ++ [last] with
          | [] => l
          | _ :: _ => l +:+ LF +:+ join LF (lines ++ [last])
          end).
  destruct (lines ++ [last]) eqn:E.
  - destruct lines; discriminate.
  - simpl. now rewrite <- IH.
Qed.

Lemma base64_char_facts (c : ascii) :
  is_base64_char c = true ->
  is_space c = false /\ is_line_terminator c = false /\ c <> "-"%char.
Proof.
  intros H. split_and!.
  - unfold is_base64_char, is_space in *. destruct (nat_of_ascii c) as [|n]; [discriminate |].
    apply not_true_is_false. intros Hs.
    repeat (apply orb_prop in H as [H|H] || apply orb_prop in Hs as [Hs|Hs]
            || apply andb_prop in H as [? ?] || apply andb_prop in Hs as [? ?]);
    repeat match goal with
           | X : (_ <=? _) = true |- _ => apply Nat.leb_le in X
           | X : (_ =? _) = true |- _ => apply Nat.eqb_eq in X
           end; lia.
  - unfold is_base64_char, is_line_terminator in *.
    apply not_true_is_false. intros Hs.
    repeat (apply orb_prop in H as [H|H] || apply orb_prop in Hs as [Hs|Hs]
            || apply andb_prop in H as [? ?] || apply andb_prop in Hs as [? ?]);
    repeat match goal with
           | X : (_ <=? _) = true |- _ => apply Nat.leb_le in X
           | X : (_ =? _) = true |- _ => apply Nat.eqb_eq in X
           end; lia.
  - intros ->. vm_compute in H. discriminate.
Qed.

Lemma base64Text_cons (c : ascii) (s : string) :
  base64Text (String c s) = true -> is_base64_char c = true /\ base64Text s = true.
Proof. simpl. now rewrite andb_true_iff. Qed.

Lemma base64Text_one_line (s : string) : base64Text s = true -> one_line s = true.
Proof.
  induction s as [|c s IH]; [reflexivity |].
  intros [Hc Hs]%base64Text_cons. simpl.
  destruct (base64_char_facts c Hc) as (_ & -> & _). now rewrite IH.
Qed.

Lemma base64Text_append (a b : string) :
  base64Text (a +:+ b) = base64Text a && base64Text b.
Proof.
  induction a as [|c a IH]; [reflexivity |].
  rewrite append_cons. simpl. now rewrite IH, andb_assoc.
Qed.

Lemma base64Text_trim (s : string) : base64Text s = true -> trim s = s.
Proof.
  intros H. unfold trim.
  assert (Hstart : trimStart s = s).
  { destruct s as [|c s]; [reflexivity |].
    apply base64Text_cons in H as [Hc _]. simpl.
    now destruct (base64_char_facts c Hc) as (-> & _). }
  rewrite Hstart. clear Hstart.
  induction s as [|c s IH]; [reflexivity |].
  apply base64Text_cons in H as [Hc Hs]. simpl.
  destruct (base64_char_facts c Hc) as (-> & _). simpl. now rewrite IH.
Qed.


Lemma remove_first_skip (needle s : string) (c x : ascii) :
  c <> x ->
  remove_first (String c needle) (String x s)
  = String x (remove_first (String c needle) s).
Proof.
  intros Hne. simpl. destruct (ascii_dec c x); [contradiction | reflexivity].
Qed.

Lemma remove_footer_line (l acc : string) :
  base64Text l = true ->
  remove_first "-----END PUBLIC KEY-----" (l +:+ LF +:+ acc)
  = l +:+ LF +:+ remove_first "-----END PUBLIC KEY-----" acc.
Proof.
  induction l as [|c l IH]; intros Hl.
  - now apply remove_first_skip.
  - apply base64Text_cons in Hl as [Hc Hl]. rewrite !append_cons.
    destruct (base64_char_facts c Hc) as (_ & _ & Hdash).
    rewrite remove_first_skip by congruence. now rewrite IH.
Qed.

Lemma remove_newlines_line (l rest : string) :
  one_line l = true ->
  remove_newlines (l +:+ LF +:+ rest) = l +:+ remove_newlines rest.
Proof.
  induction l as [|c l IH]; intros Hl; [reflexivity |].
  apply one_line_cons in Hl as [Hc Hl]. rewrite !append_cons.
  unfold is_line_terminator in Hc. apply orb_false_elim in Hc as [H10 H13].
  simpl. rewrite H10, H13. now rewrite <- IH.
Qed.

Lemma pem_body_strip (lines : list string) :
  Forall (fun l => base64Text l = true) lines ->
  remove_newlines
    (remove_first "-----END PUBLIC KEY-----"
       (foldr (fun l acc => l +:+ LF +:+ acc) "-----END PUBLIC KEY-----" lines))
  = concat_strings lines.
Proof.
  induction 1 as [|l lines Hl _ IH]; [reflexivity |].
  simpl foldr. rewrite remove_footer_line by assumption.
  rewrite remove_newlines_line by now apply base64Text_one_line.
  now rewrite IH.
Qed.

Lemma base64Text_lines (lines : list string) :
  base64Text (concat_strings lines) = true ->
  Forall (fun l => base64Text l = true) lines.
Proof.
  induction lines as [|l lines IH]; [constructor |].
  simpl. rewrite base64Text_append, andb_true_iff. intros [Hl Hrest].
  constructor; auto.
Qed.

Lemma pemLines_concat (b : string) :
  one_line b = true -> concat_strings (pemLines b) = b.
Proof. intros Hb. unfold pemLines. now rewrite match_runs_concat. Qed.

(** X1. Writing base64 text as a PEM block and reading the block back gives
    the text again: [pemToBase64 (base64ToPem b) = b] for every [b] made of
    base64 characters (padding included), whatever its length. *)
Theorem pemToBase64_base64ToPem (b : string) :
  base64Text b = true -> pemToBase64 (base64ToPem b) = b.
Proof.
  intros Hb. pose proof (base64Text_one_line b Hb) as Hline.
  unfold base64ToPem. fold (pemLines b).
  change (["-----BEGIN PUBLIC KEY-----"] ++ pemLines b ++ ["-----END PUBLIC KEY-----"])
    with ("-----BEGIN PUBLIC KEY-----" :: (pemLines b ++ ["-----END PUBLIC KEY-----"])).
  assert (Hjoin : forall h rest last, join LF (h :: rest ++ [last])
                                      = h +:+ LF +:+ join LF (rest ++ [last])).
  { intros h rest last. destruct rest; reflexivity. }
  rewrite Hjoin, join_lines. unfold pemToBase64.
  set (body := foldr _ _ _).
  change (remove_first "-----BEGIN PUBLIC KEY-----"
            ("-----BEGIN PUBLIC KEY-----" +:+ LF +:+ body))
    with (EmptyString +:+ LF +:+ body).
  rewrite remove_footer_line by reflexivity.
  rewrite remove_newlines_line by reflexivity.
  subst body. rewrite pem_body_strip.
  - rewrite pemLines_concat by assumption. now apply base64Text_trim.
  - apply base64Text_lines. now rewrite pemLines_concat.
Qed.

Lemma pemToBase64_base64ToPem_witness :
  base64Text paddedKey = true /\ pemToBase64 (base64ToPem paddedKey) = paddedKey.
Proof. split; [reflexivity | apply pemToBase64_base64ToPem; reflexivity]. Defined.

(** X2. [base64ToPem] cuts its argument into lines of 64 characters: text of
    at most 64 characters is one line (no line when it is empty), longer
    text gives its first 64 characters and then the lines of the rest. *)
Theorem pemLines_chunks (b : string) :
  one_line b = true ->
  base64ToPem b
  = join LF ("-----BEGIN PUBLIC KEY-----" :: pemLines b ++ ["-----END PUBLIC KEY-----"]) /\
  (String.length b <= 64 -> pemLines b = flush b) /\
  (64 < String.length b ->
   pemLines b = take_chars 64 b :: pemLines (drop_chars 64 b)).
Proof.
  intros Hb. split; [reflexivity |]. unfold pemLines. split; intros Hlen.
  - now rewrite match_runs_fit.
  - now rewrite match_runs_over by (try assumption; simpl; lia).
Qed.

Lemma pemLines_chunks_witness :
  one_line paddedKey = true /\
  pemLines paddedKey = take_chars 64 paddedKey :: pemLines (drop_chars 64 paddedKey).
Proof.
  split; [reflexivity |].
  destruct (pemLines_chunks paddedKey eq_refl) as (_ & _ & Hlong).
  apply Hlong. vm_compute. lia.
Defined.

End PemFacts.
